(** * HTTPPipeline: validation, construction and request handling

    A shallow embedding of [pkg/object/httppipeline/httppipeline.go]:
    [Spec.Validate], [New], [HTTPPipeline.Handle] and the helpers they
    call, together with the properties the specification states about
    them.

    Go maps are [gmap]s, slices are lists, a recovered [panic] is an
    [Err] result, and the effects of a function (log lines, calls to
    [Close], stores into the handler map) are returned as values. *)

From stdpp Require Import gmap strings list fin_maps pretty.
From Stdlib Require Import ZArith Sorted.

Local Open Scope string_scope.
Local Open Scope list_scope.
Local Open Scope nat_scope.

(** ** Results of fallible code *)

Inductive result (E A : Type) : Type :=
| Ok (a : A)
| Err (e : E).
Arguments Ok {E A} a.
Arguments Err {E A} e.

Definition is_Ok {E A} (r : result E A) : Prop :=
  match r with Ok _ => True | Err _ => False end.

Definition is_Err {E A} (r : result E A) : Prop :=
  match r with Ok _ => False | Err _ => True end.

(** ** Constants and string helpers *)

(** [LabelEND] is the built-in label for jumping of flow. *)
Definition LabelEND : string := "END".

(** Modelled from the spec: [stringtool.StrInSlice] is not among the
    translated files; the spec reads its two uses as the result being
    among the declared result labels. *)
Fixpoint StrInSlice (s : string) (l : list string) : bool :=
  match l with
  | [] => false
  | x :: l' => if decide (x = s) then true else StrInSlice s l'
  end.

(** Modelled from the spec: [stringtool.Cat] is not among the
    translated files; the tag and the rendering of a stat the spec
    shows are its arguments one after the other. *)
Definition Cat (parts : list string) : string :=
  foldr String.append "" parts.

(** [strings.Join]. *)
Fixpoint Join (elems : list string) (sep : string) : string :=
  match elems with
  | [] => ""
  | [x] => x
  | x :: rest => x +:+ sep +:+ Join rest sep
  end.

(** ** Plugin specs and their meta *)

(** A plugin spec is a [map[string]interface{}]; only its scalar
    entries matter here. *)
Abbreviation PluginSpec := (gmap string string).

(** Modelled from the spec: [PluginMeta] is declared outside the
    translated files; it is the name and the kind of a plugin, both
    required. *)
Record PluginMeta := {
  meta_Name : string;
  meta_Kind : string
}.

(** [unmarshal(marshal(plugin), meta)]: the [name] and [kind] entries,
    the empty string when an entry is missing. *)
Definition metaOf (plugin : PluginSpec) : PluginMeta :=
  {| meta_Name := default "" (plugin !! "name");
     meta_Kind := default "" (plugin !! "kind") |}.

Record Flow := {
  flow_Plugin : string;
  flow_JumpIf : gmap string string
}.

Record Spec := {
  spec_Name : string;
  spec_Flow : list Flow;
  spec_Plugins : list PluginSpec
}.

(** The raw configuration handed to [Validate]: what is stored under
    its [plugins] key, [None] when the key is absent or null. *)
Record RawConfig := {
  raw_plugins : option (list PluginSpec)
}.

Definition extractPluginsData (config : RawConfig) : option (list PluginSpec) :=
  raw_plugins config.

Fixpoint convertToPluginBuffs_loop (plugins : list PluginSpec)
    (rst : gmap string PluginSpec) : gmap string PluginSpec :=
  match plugins with
  | [] => rst
  | p :: plugins' =>
      convertToPluginBuffs_loop plugins' (<[meta_Name (metaOf p) := p]> rst)
  end.

Definition convertToPluginBuffs (obj : list PluginSpec) : gmap string PluginSpec :=
  convertToPluginBuffs_loop obj ∅.

(** ** Errors of [Validate] *)

Inductive PluginsError :=
| ErrNameRequired
| ErrKindRequired
| ErrNameIsEND
| ErrConflictName (name : string)
| ErrUnsupportedKind (kind : string)
| ErrSpecInvalid (name : string).

Inductive FlowError :=
| ErrRepeatedPlugin (name : string)
| ErrPluginNotFound (name : string)
| ErrResultNotIn (plugin result : string) (results : list string)
| ErrLabelNotFound (plugin label : string).

(** The prefix of the message mirrors [errPrefix]. *)
Inductive ValidateError :=
| ErrPluginsIsRequired
| ErrPlugins (e : PluginsError)
| ErrFlow (e : FlowError).

Definition validatePluginMeta (meta : PluginMeta) : option PluginsError :=
  if decide (String.length (meta_Name meta) = 0) then Some ErrNameRequired
  else if decide (String.length (meta_Kind meta) = 0) then Some ErrKindRequired
  else None.

(** ** Statistics of one request *)

Record PluginStat := {
  stat_Name : string;
  stat_Kind : string;
  stat_Result : string;
  stat_Duration : Z
}.

Abbreviation PipelineContext := (list PluginStat).

(** A line written by [logger.Errorf] in [Handle]. *)
Inductive LogLine :=
| BugInvalidResult (result : string) (results : list string).

(** Panics of [New] and [Handle]. *)
Inductive Panic :=
| PanicFlowPluginNotFound (name : string)
| PanicKindNotFound (kind : string)
| PanicReflectCall (name : string)
| PanicIndexOutOfRange (index len : nat).

(** ** The world around the pipeline *)

(** What the pipeline is handed from outside the translated files.
    The request context, as far as the pipeline touches it: the clock
    read by [time.Now], [AddTag], and whatever a plugin does to the
    context. [Plugin] is the interface of that name: [Plugin_Handle]
    returns the result label and the context it leaves behind, and
    [Plugin_Type] is the dynamic type of a plugin, which [reflect]
    compares when a constructor is called. [Duration_String] is
    [time.Duration.String] of the standard library. *)
Class World := {
  HTTPContext : Type;
  Now : HTTPContext → Z;
  AddTag : string → HTTPContext → HTTPContext;
  Plugin : Type;
  Plugin_Handle : Plugin → HTTPContext → string * HTTPContext;
  PluginType : Type;
  PluginType_eq_dec :: EqDecision PluginType;
  Plugin_Type : Plugin → PluginType;
  Duration_String : Z → string
}.

Section Pipeline.

Context `{World}.

(** Modelled from the spec: [PluginRecord] is declared outside the
    translated files; it is the entry of a plugin kind in the registry,
    with its constructor, its spec schema and its declared result
    labels. [pr_NewFunc] gets the spec and the plugin of the previous
    generation ([None] for the zero value); [pr_Validate] stands for
    unmarshalling into the default spec of the kind and validating it
    against the raw buffer of the plugin. *)
Record PluginRecord := {
  pr_Kind : string;
  pr_NewFunc : PluginSpec → option Plugin → Plugin;
  pr_Validate : PluginSpec → option PluginSpec → bool;
  pr_PluginType : PluginType;
  pr_Results : list string
}.

(** The registry [pluginBook], declared outside the translated files
    and filled by the plugin packages: a parameter here. *)
Context (pluginBook : gmap string PluginRecord).

(** *** [Spec.Validate] *)

(** One round of the loop over [s.Plugins]. *)
Definition validatePlugin (pluginBuffs : gmap string PluginSpec)
    (pluginRecords : gmap string PluginRecord) (plugin : PluginSpec)
    : result PluginsError (gmap string PluginRecord) :=
  let meta := metaOf plugin in
  match validatePluginMeta meta with
  | Some e => Err e
  | None =>
    if decide (meta_Name meta = LabelEND) then Err ErrNameIsEND
    else match pluginRecords !! meta_Name meta with
    | Some _ => Err (ErrConflictName (meta_Name meta))
    | None =>
      match pluginBook !! meta_Kind meta with
      | None => Err (ErrUnsupportedKind (meta_Kind meta))
      | Some pr =>
        let pluginRecords' := <[meta_Name meta := pr]> pluginRecords in
        if pr_Validate pr plugin (pluginBuffs !! meta_Name meta)
        then Ok pluginRecords'
        else Err (ErrSpecInvalid (meta_Name meta))
      end
    end
  end.

Fixpoint validatePlugins (pluginBuffs : gmap string PluginSpec)
    (pluginRecords : gmap string PluginRecord) (plugins : list PluginSpec)
    : result PluginsError (gmap string PluginRecord) :=
  match plugins with
  | [] => Ok pluginRecords
  | plugin :: plugins' =>
    match validatePlugin pluginBuffs pluginRecords plugin with
    | Err e => Err e
    | Ok pluginRecords' => validatePlugins pluginBuffs pluginRecords' plugins'
    end
  end.

(** The loop over [s.Flow] that looks for a repeated plugin. The set
    [plugins] is created empty and the loop body never adds to it. *)
Fixpoint checkRepeated (plugins : gset string) (flow : list Flow)
    : option FlowError :=
  match flow with
  | [] => None
  | f :: flow' =>
    if decide (flow_Plugin f ∈ plugins)
    then Some (ErrRepeatedPlugin (flow_Plugin f))
    else checkRepeated plugins flow'
  end.

(** The loop over [f.JumpIf]. Go visits the entries of a map in an
    unspecified order; the order of [map_to_list] is taken here, which
    can only change which of several errors is reported. *)
Fixpoint checkJumpIf (f : Flow) (pr : PluginRecord) (labelsValid : gset string)
    (entries : list (string * string)) : option FlowError :=
  match entries with
  | [] => None
  | (result, label) :: entries' =>
    if negb (StrInSlice result (pr_Results pr))
    then Some (ErrResultNotIn (flow_Plugin f) result (pr_Results pr))
    else if decide (label ∈ labelsValid)
    then checkJumpIf f pr labelsValid entries'
    else Some (ErrLabelNotFound (flow_Plugin f) label)
  end.

(** The loop [for i := len(s.Flow) - 1; i >= 0; i--], run over the
    flow from its last step to its first. *)
Fixpoint scanFlow (pluginRecords : gmap string PluginRecord)
    (labelsValid : gset string) (backwards : list Flow)
    : result FlowError (gset string) :=
  match backwards with
  | [] => Ok labelsValid
  | f :: backwards' =>
    match pluginRecords !! flow_Plugin f with
    | None => Err (ErrPluginNotFound (flow_Plugin f))
    | Some pr =>
      match checkJumpIf f pr labelsValid (map_to_list (flow_JumpIf f)) with
      | Some e => Err e
      | None => scanFlow pluginRecords ({[flow_Plugin f]} ∪ labelsValid) backwards'
      end
    end
  end.

Definition Validate (s : Spec) (config : RawConfig) : result ValidateError unit :=
  match extractPluginsData config with
  | None => Err ErrPluginsIsRequired
  | Some pluginsData =>
    let pluginBuffs := convertToPluginBuffs pluginsData in
    match validatePlugins pluginBuffs ∅ (spec_Plugins s) with
    | Err e => Err (ErrPlugins e)
    | Ok pluginRecords =>
      match checkRepeated ∅ (spec_Flow s) with
      | Some e => Err (ErrFlow e)
      | None =>
        match scanFlow pluginRecords {[LabelEND]} (rev (spec_Flow s)) with
        | Err e => Err (ErrFlow e)
        | Ok _ => Ok ()
        end
      end
    end
  end.

(** *** Running pipelines *)

Record runningPlugin := {
  rp_spec : PluginSpec;
  rp_jumpIf : gmap string string;
  rp_plugin : Plugin;
  rp_meta : PluginMeta;
  rp_pr : PluginRecord
}.

(** The field [handlers] points to the map shared with the scheduler;
    [New] takes that map as an argument and returns it updated. *)
Record HTTPPipeline := {
  hp_spec : Spec;
  hp_runningPlugins : list runningPlugin
}.

Fixpoint getRunningPlugin_loop (plugins : list runningPlugin) (name : string)
    : option runningPlugin :=
  match plugins with
  | [] => None
  | plugin :: plugins' =>
    if decide (meta_Name (rp_meta plugin) = name) then Some plugin
    else getRunningPlugin_loop plugins' name
  end.

Definition getRunningPlugin (hp : HTTPPipeline) (name : string)
    : option runningPlugin :=
  getRunningPlugin_loop (hp_runningPlugins hp) name.

(** *** [New] *)

(** What [New] does to the world around it, in the order it does it. *)
Inductive Event :=
| EvNewFunc (kind : string) (spec : PluginSpec) (prevValue : option Plugin)
| EvClose (plugin : Plugin)
| EvStore (name : string) (hp : HTTPPipeline).

(** The inner loop over [spec.Plugins] that looks for the plugin named
    by a flow step and breaks at the first match. *)
Fixpoint findPluginSpec (plugins : list PluginSpec) (name : string)
    : option PluginSpec :=
  match plugins with
  | [] => None
  | ps :: plugins' =>
    if decide (meta_Name (metaOf ps) = name) then Some ps
    else findPluginSpec plugins' name
  end.

(** The running plugins before their plugin is built: the spec and the
    jump table. *)
Fixpoint resolveFlow (plugins : list PluginSpec) (flow : list Flow)
    : result Panic (list (PluginSpec * gmap string string)) :=
  match flow with
  | [] => Ok []
  | f :: flow' =>
    match findPluginSpec plugins (flow_Plugin f) with
    | None => Err (PanicFlowPluginNotFound (flow_Plugin f))
    | Some pluginSpec =>
      match resolveFlow plugins flow' with
      | Err e => Err e
      | Ok rest => Ok ((pluginSpec, flow_JumpIf f) :: rest)
      end
    end
  end.

Definition resolveRunningPlugins (spec : Spec)
    : result Panic (list (PluginSpec * gmap string string)) :=
  if decide (length (spec_Flow spec) = 0)
  then Ok ((λ pluginSpec, (pluginSpec, ∅)) <$> spec_Plugins spec)
  else resolveFlow (spec_Plugins spec) (spec_Flow spec).

(** The argument [prevValue] of the constructor: the plugin of the
    same name in [prev], the zero value otherwise. *)
Definition prevValueOf (prev : option HTTPPipeline) (name : string)
    : option Plugin :=
  match prev with
  | None => None
  | Some prev =>
    match getRunningPlugin prev name with
    | None => None
    | Some prevPlugin => Some (rp_plugin prevPlugin)
    end
  end.

(** [reflect.Value.Call] panics when the previous plugin is not of the
    type the constructor takes. *)
Definition callable (pr : PluginRecord) (prevValue : option Plugin) : bool :=
  match prevValue with
  | None => true
  | Some p => bool_decide (Plugin_Type p = pr_PluginType pr)
  end.

(** The loop that builds the plugin of every running plugin. *)
Fixpoint buildPlugins (prev : option HTTPPipeline)
    (runningPlugins : list (PluginSpec * gmap string string))
    : result Panic (list runningPlugin * list Event) :=
  match runningPlugins with
  | [] => Ok ([], [])
  | (spec, jumpIf) :: runningPlugins' =>
    let meta := metaOf spec in
    match pluginBook !! meta_Kind meta with
    | None => Err (PanicKindNotFound (meta_Kind meta))
    | Some pr =>
      let prevValue := prevValueOf prev (meta_Name meta) in
      if callable pr prevValue then
        let plugin := pr_NewFunc pr spec prevValue in
        let rp := {| rp_spec := spec; rp_jumpIf := jumpIf;
                     rp_plugin := plugin; rp_meta := meta; rp_pr := pr |} in
        match buildPlugins prev runningPlugins' with
        | Err e => Err e
        | Ok (rps, evs) => Ok (rp :: rps, EvNewFunc (meta_Kind meta) spec prevValue :: evs)
        end
      else Err (PanicReflectCall (meta_Name meta))
    end
  end.

(** The loop over [prev.runningPlugins] that closes what [hp] dropped. *)
Fixpoint closeDropped (hp : HTTPPipeline) (prevRunning : list runningPlugin)
    : list Event :=
  match prevRunning with
  | [] => []
  | runningPlugin :: prevRunning' =>
    match getRunningPlugin hp (meta_Name (rp_meta runningPlugin)) with
    | None => EvClose (rp_plugin runningPlugin) :: closeDropped hp prevRunning'
    | Some _ => closeDropped hp prevRunning'
    end
  end.

Record NewResult := {
  new_hp : HTTPPipeline;
  new_handlers : gmap string HTTPPipeline;
  new_events : list Event
}.

Definition New (spec : Spec) (prev : option HTTPPipeline)
    (handlers : gmap string HTTPPipeline) : result Panic NewResult :=
  match resolveRunningPlugins spec with
  | Err e => Err e
  | Ok runningPlugins =>
    match buildPlugins prev runningPlugins with
    | Err e => Err e
    | Ok (rps, built) =>
      let hp := {| hp_spec := spec; hp_runningPlugins := rps |} in
      let closed :=
        match prev with
        | None => []
        | Some prev => closeDropped hp (hp_runningPlugins prev)
        end in
      Ok {| new_hp := hp;
            new_handlers := <[spec_Name spec := hp]> handlers;
            new_events := built ++ closed ++ [EvStore (spec_Name spec) hp] |}
    end
  end.

(** *** [PluginStat.log] and [PipelineContext.log] *)

Definition PluginStat_log (ps : PluginStat) : string :=
  let result := stat_Result ps in
  let result := if decide (result ≠ "") then result +:+ "," else result in
  Cat [stat_Name ps; "("; result; Duration_String (stat_Duration ps); ")"].

Definition PipelineContext_log (ctx : PipelineContext) : string :=
  if decide (length ctx = 0) then "<empty>"
  else Join (PluginStat_log <$> ctx) "->".

(** *** [HTTPPipeline.Handle] *)

(** What the loop of [Handle] carries: the request context, the plugin
    stats of the pipeline context, and the lines logged so far. *)
Record WalkState := {
  ws_ctx : HTTPContext;
  ws_stats : PipelineContext;
  ws_logs : list LogLine
}.

(** Lines 375 to 385: run the plugin, time it, append its stat. *)
Definition runPlugin (rp : runningPlugin) (ctx : HTTPContext)
    : PluginStat * HTTPContext :=
  let startTime := Now ctx in
  let '(result, ctx') := Plugin_Handle (rp_plugin rp) ctx in
  let handleDuration := (Now ctx' - startTime)%Z in
  ({| stat_Name := meta_Name (rp_meta rp);
      stat_Kind := meta_Kind (rp_meta rp);
      stat_Result := result;
      stat_Duration := handleDuration |}, ctx').

(** The line logged for a result outside the declared results. *)
Definition bugLog (rp : runningPlugin) (result : string) : list LogLine :=
  if StrInSlice result (pr_Results (rp_pr rp)) then []
  else [BugInvalidResult result (pr_Results (rp_pr rp))].

(** The [for] loop of [Handle], entered at index [i] with
    [rest = hp.runningPlugins[i:]]: [i < len(hp.runningPlugins) - 1]
    holds when the tail of [rest] is not empty, and
    [hp.runningPlugins[i+1]] is then its head. *)
Fixpoint walk (rest : list runningPlugin) (nextPluginName : string)
    (st : WalkState) : WalkState :=
  match rest with
  | [] => st
  | runningPlugin :: rest' =>
    if decide (nextPluginName = LabelEND) then st
    else if decide (nextPluginName ≠ meta_Name (rp_meta runningPlugin))
    then walk rest' nextPluginName st
    else
      let '(pluginStat, ctx') := runPlugin runningPlugin (ws_ctx st) in
      let result := stat_Result pluginStat in
      let stats' := ws_stats st ++ [pluginStat] in
      if decide (result ≠ "") then
        let st' := {| ws_ctx := ctx'; ws_stats := stats';
                      ws_logs := ws_logs st ++ bugLog runningPlugin result |} in
        let jumpIf := rp_jumpIf runningPlugin in
        if decide (size jumpIf = 0) then st'
        else match jumpIf !! result with
             | None => st'
             | Some nextPluginName' => walk rest' nextPluginName' st'
             end
      else
        let st' := {| ws_ctx := ctx'; ws_stats := stats';
                      ws_logs := ws_logs st |} in
        let nextPluginName' :=
          match rest' with
          | next :: _ => meta_Name (rp_meta next)
          | [] => nextPluginName
          end in
        walk rest' nextPluginName' st'
  end.

Record HandleResult := {
  out_ctx : HTTPContext;
  out_stats : PipelineContext;
  out_logs : list LogLine
}.

(** [Handle]. The pipeline context lives in [runningContexts] only
    while [Handle] runs and nothing below reads it there, so that
    table is left out; [out_stats] is what the pipeline context held
    when it was dropped. *)
Definition Handle (hp : HTTPPipeline) (ctx : HTTPContext)
    : result Panic HandleResult :=
  match hp_runningPlugins hp with
  | [] => Err (PanicIndexOutOfRange 0 0)
  | first :: _ =>
    let nextPluginName := meta_Name (rp_meta first) in
    let st := walk (hp_runningPlugins hp) nextPluginName
                {| ws_ctx := ctx; ws_stats := []; ws_logs := [] |} in
    Ok {| out_ctx := AddTag (Cat ["pipeline: "; PipelineContext_log (ws_stats st)])
                       (ws_ctx st);
          out_stats := ws_stats st;
          out_logs := ws_logs st |}
  end.

(** *** The walk of [Handle], stated apart from the loop *)

(** Running the plugins at the given indices one after the other, each
    on the context the one before left: the stats this records and the
    context at the end. *)
Fixpoint replay (rps : list runningPlugin) (idxs : list nat)
    (ctx : HTTPContext) : PipelineContext * HTTPContext :=
  match idxs with
  | [] => ([], ctx)
  | i :: idxs' =>
    match rps !! i with
    | None => ([], ctx)
    | Some rp =>
      let '(pluginStat, ctx') := runPlugin rp ctx in
      let '(stats, ctx'') := replay rps idxs' ctx' in
      (pluginStat :: stats, ctx'')
    end
  end.

(** The name a result label sends the walk to from index [i]: the
    entry of the jump table for a result that is not empty, the name
    of the next running plugin for the empty result, nothing when
    there is neither. *)
Definition labelTarget (rps : list runningPlugin) (i : nat) (result : string)
    : option string :=
  if decide (result = "")
  then (λ rp, meta_Name (rp_meta rp)) <$> rps !! S i
  else rps !! i ≫= λ rp, rp_jumpIf rp !! result.

(** No plugin runs from index [from] on: there is no next name, or it
    is [END], or no running plugin at [from] or later has it. *)
Definition walkEnds (rps : list runningPlugin) (from : nat)
    (next : option string) : Prop :=
  match next with
  | None => True
  | Some name =>
    name = LabelEND ∨
    ∀ k rp, from ≤ k → rps !! k = Some rp → meta_Name (rp_meta rp) ≠ name
  end.

(** [idxs] and [stats] are a forward walk from index [from] towards
    the name [next]: every executed index is the first one at or after
    the point reached whose plugin has the awaited name, the plugins
    passed over have another name, and the name awaited after a plugin
    is the one its result label gives. *)
Fixpoint forwardWalk (rps : list runningPlugin) (from : nat)
    (next : option string) (idxs : list nat) (stats : PipelineContext)
    : Prop :=
  match idxs, stats with
  | [], [] => walkEnds rps from next
  | i :: idxs', pluginStat :: stats' =>
    (∃ name rp,
      next = Some name ∧ name ≠ LabelEND ∧ from ≤ i ∧
      rps !! i = Some rp ∧ meta_Name (rp_meta rp) = name ∧
      ∀ k rp', from ≤ k → k < i → rps !! k = Some rp' →
        meta_Name (rp_meta rp') ≠ name) ∧
    forwardWalk rps (S i) (labelTarget rps i (stat_Result pluginStat))
      idxs' stats'
  | _, _ => False
  end.

(** The lines logged along a walk. *)
Fixpoint bugLogs (rps : list runningPlugin) (idxs : list nat)
    (stats : PipelineContext) : list LogLine :=
  match idxs, stats with
  | i :: idxs', pluginStat :: stats' =>
    (if decide (stat_Result pluginStat ≠ "")
     then from_option (λ rp, bugLog rp (stat_Result pluginStat)) [] (rps !! i)
     else []) ++ bugLogs rps idxs' stats'
  | _, _ => []
  end.


(** The tag as the specification words it: every stat rendered as
    [name(result,duration)], the renderings joined by [->]. *)
Definition specStatLog (ps : PluginStat) : string :=
  stat_Name ps +:+ "(" +:+ stat_Result ps +:+ "," +:+
  Duration_String (stat_Duration ps) +:+ ")".

Definition specTag (stats : PipelineContext) : string :=
  "pipeline: " +:+ Join (specStatLog <$> stats) "->".

(** The tag as the code renders it, written out. *)
Definition statLog (ps : PluginStat) : string :=
  stat_Name ps +:+ "(" +:+
  (if decide (stat_Result ps = "") then "" else stat_Result ps +:+ ",") +:+
  Duration_String (stat_Duration ps) +:+ ")".

Definition pipelineTag (stats : PipelineContext) : string :=
  "pipeline: " +:+
  match stats with
  | [] => "<empty>"
  | _ => Join (statLog <$> stats) "->"
  end.

End Pipeline.

(** ** A small world to run the code in *)

Module Demo.

Record Ctx := {
  clock : Z;
  tags : list string;
  calls : list string
}.

(** A plugin that answers with a fixed result label, takes five
    nanoseconds and leaves its name in the context. [mock_gen] counts
    the generations it inherited from. *)
Record Mock := {
  mock_name : string;
  mock_kind : string;
  mock_returns : string;
  mock_gen : nat
}.

Definition Mock_Handle (p : Mock) (c : Ctx) : string * Ctx :=
  (mock_returns p,
   {| clock := clock c + 5; tags := tags c; calls := calls c ++ [mock_name p] |}).

Definition world : World := {|
  HTTPContext := Ctx;
  Now := clock;
  AddTag := λ t c, {| clock := clock c; tags := tags c ++ [t]; calls := calls c |};
  Plugin := Mock;
  Plugin_Handle := Mock_Handle;
  PluginType := string;
  Plugin_Type := mock_kind;
  Duration_String := λ d, pretty d +:+ "ns"
|}.

Definition newMock (kind : string) (spec : PluginSpec) (prev : option Mock) : Mock :=
  {| mock_name := default "" (spec !! "name");
     mock_kind := kind;
     mock_returns := default "" (spec !! "returns");
     mock_gen := match prev with Some p => S (mock_gen p) | None => 0 end |}.

Definition record (kind : string) (results : list string)
    : @PluginRecord world :=
  @Build_PluginRecord world kind (newMock kind) (λ _ _, true) kind results.

Definition book : gmap string (@PluginRecord world) :=
  <["Validator" := record "Validator" ["invalid"]]>
    (<["Mock" := record "Mock" ["fallback"]]> ∅).

Definition plug (name kind returns : string) : PluginSpec :=
  <["name" := name]> (<["kind" := kind]> (<["returns" := returns]> ∅)).

Definition step (plugin : string) (jumps : list (string * string)) : Flow :=
  {| flow_Plugin := plugin; flow_JumpIf := list_to_map jumps |}.

Definition config (s : Spec) : RawConfig :=
  {| raw_plugins := Some (spec_Plugins s) |}.

Definition ctx0 : Ctx := {| clock := 0; tags := []; calls := [] |}.

(** No flow: a validator that rejects, then a mock. *)
Definition rejecting : Spec :=
  {| spec_Name := "pipeline-demo";
     spec_Flow := [];
     spec_Plugins := [plug "a" "Validator" "invalid"; plug "b" "Mock" ""] |}.

(** No flow, every plugin answers with the empty label. *)
Definition passing : Spec :=
  {| spec_Name := "pipeline-demo";
     spec_Flow := [];
     spec_Plugins := [plug "a" "Validator" ""; plug "b" "Mock" ""] |}.

(** A flow with a forward jump over [b]. *)
Definition jumping : Spec :=
  {| spec_Name := "pipeline-demo";
     spec_Flow := [step "a" [("invalid", "c")]; step "b" []; step "c" []];
     spec_Plugins := [plug "a" "Validator" "invalid"; plug "b" "Mock" "";
                      plug "c" "Mock" ""] |}.

(** A flow whose last step jumps back to the first. *)
Definition backward : Spec :=
  {| spec_Name := "pipeline-demo";
     spec_Flow := [step "a" []; step "b" [("fallback", "a")]];
     spec_Plugins := [plug "a" "Validator" ""; plug "b" "Mock" "fallback"] |}.

(** A flow that names the plugin [a] twice. *)
Definition repeated : Spec :=
  {| spec_Name := "pipeline-demo";
     spec_Flow := [step "a" []; step "a" []];
     spec_Plugins := [plug "a" "Validator" ""] |}.

(** A plugin called [END]. *)
Definition namedEND : Spec :=
  {| spec_Name := "pipeline-demo";
     spec_Flow := [];
     spec_Plugins := [plug "a" "Validator" ""; plug "END" "Mock" ""] |}.

(** The jump table of [a] has a key that is no result of its kind, and
    [a] answers with it. *)
Definition undeclared : Spec :=
  {| spec_Name := "pipeline-demo";
     spec_Flow := [step "a" [("oops", "b")]; step "b" []];
     spec_Plugins := [plug "a" "Validator" "oops"; plug "b" "Mock" ""] |}.

(** As [undeclared], with an empty jump table. *)
Definition undeclaredStop : Spec :=
  {| spec_Name := "pipeline-demo";
     spec_Flow := [step "a" []; step "b" []];
     spec_Plugins := [plug "a" "Validator" "oops"; plug "b" "Mock" ""] |}.

(** One plugin that answers with the empty label. *)
Definition single : Spec :=
  {| spec_Name := "pipeline-demo";
     spec_Flow := [];
     spec_Plugins := [plug "a" "Validator" ""] |}.

(** No plugin at all. *)
Definition empty : Spec :=
  {| spec_Name := "pipeline-demo"; spec_Flow := []; spec_Plugins := [] |}.

(** A plugin called [END] comes first; [Validate] turns this spec down,
    [New] does not look. *)
Definition firstEND : Spec :=
  {| spec_Name := "pipeline-demo";
     spec_Flow := [];
     spec_Plugins := [plug "END" "Mock" ""; plug "b" "Mock" ""] |}.

(** A flow whose first step jumps to [END] when [a] rejects. *)
Definition ending : Spec :=
  {| spec_Name := "pipeline-demo";
     spec_Flow := [step "a" [("invalid", "END")]; step "b" []];
     spec_Plugins := [plug "a" "Validator" "invalid"; plug "b" "Mock" ""] |}.

(** A flow that names a plugin the spec does not have. *)
Definition dangling : Spec :=
  {| spec_Name := "pipeline-demo";
     spec_Flow := [step "a" []; step "zz" []; step "b" []];
     spec_Plugins := [plug "a" "Validator" ""; plug "b" "Mock" ""] |}.

(** What [New] returns, an empty pipeline standing in for a panic. *)
Definition created (s : Spec) (prev : option (@HTTPPipeline world))
    : @NewResult world :=
  match New book s prev ∅ with
  | Ok r => r
  | Err _ =>
    {| new_hp := {| hp_spec := s; hp_runningPlugins := [] |};
       new_handlers := ∅;
       new_events := [] |}
  end.

Definition pipeline (s : Spec) : @HTTPPipeline world :=
  new_hp (created s None).

(** Building [new] over the pipeline built from [old]. *)
Definition renewed (old new : Spec) : @NewResult world :=
  created new (Some (pipeline old)).

(** What a request sees: the calls made, the tags, the stats and the
    lines logged. *)
Definition served (s : Spec)
    : option (list string * list string * PipelineContext * list LogLine) :=
  match Handle (pipeline s) ctx0 with
  | Ok out => Some (calls (out_ctx out), tags (out_ctx out),
                    out_stats out, out_logs out)
  | Err _ => None
  end.

End Demo.

(** ** The cluster-backed credential store of the validator *)

Module BasicAuth.

(** Modelled from the spec: the cluster key-value store, key to YAML
    document, a document being its scalar entries. *)
Abbreviation Snapshot := (gmap string (gmap string string)).

(** Modelled from the spec: the calls a store makes to the cluster,
    the prefix scan and the subscription of the watcher. *)
Inductive ClusterCall :=
| GetPrefix (prefix : string)
| SyncPrefix (prefix : string).

(** Modelled from the spec: the store [etcdUserCache] is not among the
    translated files, only its test is. It holds the configured prefix,
    the map from user name to bcrypt hash, and whether the background
    watcher is subscribed. *)
Record etcdUserCache := {
  prefix : string;
  users : gmap string string;
  watching : bool
}.

(** Modelled from the spec: the accepted shapes of a value are
    [{username, password}] and, as a fallback, [{key, password}]; any
    other shape is skipped. *)
Definition credentialOf (doc : gmap string string) : option (string * string) :=
  match doc !! "password" with
  | None => None
  | Some hash =>
    match doc !! "username" with
    | Some username => Some (username, hash)
    | None =>
      match doc !! "key" with
      | Some key => Some (key, hash)
      | None => None
      end
    end
  end.

(** Modelled from the spec: the map from user name to hash a snapshot
    gives. *)
Definition credentials (kvs : Snapshot) : gmap string string :=
  list_to_map (omap (λ kv, credentialOf kv.2) (map_to_list kvs)).

(** Modelled from the spec: the entries a prefix scan returns. *)
Definition underPrefix (prefix : string) (kvs : Snapshot) : Snapshot :=
  filter (λ kv, String.prefix prefix kv.1 = true) kvs.

(** Modelled from the spec: the store built with an empty prefix. The
    test in the translated files builds it as the struct literal
    [&etcdUserCache{prefix: ""}], every other field at its zero value:
    no user, no subscription. *)
Definition emptyPrefixCache : etcdUserCache :=
  {| prefix := ""; users := ∅; watching := false |}.

(** Modelled from the spec: the configured prefix is normalised to
    [/custom-data/<userPrefix>/], slashes in front of and behind the
    user prefix being dropped first; the test in the translated files
    shows [credentials] standing in for an empty user prefix. This is
    the part every normalised prefix starts with. *)
Definition customDataPrefix : string := "/custom-data/".

(** Modelled from the spec: the slash that separates the parts of a
    key. *)
Definition slash : Ascii.ascii := Ascii.ascii_of_nat 47.

(** Modelled from the spec: the slashes in front of the user prefix are
    dropped. *)
Fixpoint trimLeadingSlashes (s : string) : string :=
  match s with
  | String c s' => if decide (c = slash) then trimLeadingSlashes s' else s
  | EmptyString => s
  end.

(** Modelled from the spec: the slashes behind the user prefix are
    dropped. *)
Fixpoint trimTrailingSlashes (s : string) : string :=
  match s with
  | EmptyString => EmptyString
  | String c s' =>
    match trimTrailingSlashes s' with
    | EmptyString => if decide (c = slash) then EmptyString
                     else String c EmptyString
    | rest => String c rest
    end
  end.

(** Modelled from the spec: the normalised prefix,
    [/custom-data/<userPrefix>/]. *)
Definition normalisePrefix (etcdPrefix : string) : string :=
  let userPrefix := trimTrailingSlashes (trimLeadingSlashes etcdPrefix) in
  customDataPrefix +:+
  (if decide (userPrefix = "") then "credentials" else userPrefix) +:+ "/".

(** Modelled from the spec: the constructor [newEtcdUserCache] seeds
    the map by a prefix scan of the cluster under the normalised
    prefix. *)
Definition newEtcdUserCache (cluster : Snapshot) (etcdPrefix : string)
    : etcdUserCache * list ClusterCall :=
  let prefix := normalisePrefix etcdPrefix in
  ({| prefix := prefix;
      users := credentials (underPrefix prefix cluster);
      watching := false |},
   [GetPrefix prefix]).

(** Modelled from the spec: [watch] subscribes the background watcher
    to the prefix, and does nothing for the empty prefix. *)
Definition WatchChanges (store : etcdUserCache)
    : etcdUserCache * list ClusterCall :=
  if decide (prefix store = "") then (store, [])
  else ({| prefix := prefix store; users := users store; watching := true |},
        [SyncPrefix (prefix store)]).

(** Modelled from the spec: a snapshot that reaches a subscribed store
    replaces its map; a store that is not subscribed receives none. *)
Definition onSnapshot (store : etcdUserCache) (kvs : Snapshot) : etcdUserCache :=
  if watching store
  then {| prefix := prefix store; users := credentials kvs; watching := true |}
  else store.

(** Modelled from the spec: [close] tears the subscription down. *)
Definition Close (store : etcdUserCache) : etcdUserCache :=
  {| prefix := prefix store; users := users store; watching := false |}.

Section Match.

(** [bcrypt_verify password hash]. *)
Context (bcryptVerify : string → string → bool).

(** Modelled from the spec: [match] looks the user up and accepts when
    the password verifies against the stored hash. *)
Definition Match (store : etcdUserCache) (username password : string) : bool :=
  match users store !! username with
  | None => false
  | Some hash => bcryptVerify password hash
  end.

(** Modelled from the spec: what happens to a store during its life,
    and what can be seen of it, the cluster calls it makes and the
    answers of [Match]. *)
Inductive Op :=
| OpWatchChanges
| OpMatch (username password : string)
| OpSnapshot (kvs : Snapshot)
| OpClose.

Inductive Seen :=
| SeenCall (c : ClusterCall)
| SeenMatch (answer : bool).

Definition apply (store : etcdUserCache) (op : Op) : etcdUserCache * list Seen :=
  match op with
  | OpWatchChanges =>
    let '(store', calls) := WatchChanges store in (store', SeenCall <$> calls)
  | OpMatch username password =>
    (store, [SeenMatch (Match store username password)])
  | OpSnapshot kvs => (onSnapshot store kvs, [])
  | OpClose => (Close store, [])
  end.

Fixpoint run (store : etcdUserCache) (ops : list Op) : etcdUserCache * list Seen :=
  match ops with
  | [] => (store, [])
  | op :: ops' =>
    let '(store', seen) := apply store op in
    let '(store'', seen') := run store' ops' in
    (store'', seen ++ seen')
  end.

End Match.

End BasicAuth.

(** ** [HTTPPipeline.Status] and [HTTPPipeline.Close] *)

Section Lifetime.

Context `{World}.

(** What the method [Status] of a plugin returns, called through
    [reflect]. *)
Context {PluginStatus : Type}.
Context (Plugin_Status : Plugin → PluginStatus).

(** [Status] leaves [Timestamp] and [Health] at their zero value. *)
Record Status := {
  status_Timestamp : Z;
  status_Health : string;
  status_Plugins : gmap string PluginStatus
}.

(** The loop of [Status] over the running plugins. *)
Fixpoint Status_loop (runningPlugins : list runningPlugin)
    (plugins : gmap string PluginStatus) : gmap string PluginStatus :=
  match runningPlugins with
  | [] => plugins
  | runningPlugin :: runningPlugins' =>
    Status_loop runningPlugins'
      (<[meta_Name (rp_meta runningPlugin) :=
           Plugin_Status (rp_plugin runningPlugin)]> plugins)
  end.

Definition HTTPPipeline_Status (hp : HTTPPipeline) : Status :=
  {| status_Timestamp := 0;
     status_Health := "";
     status_Plugins := Status_loop (hp_runningPlugins hp) ∅ |}.

(** [Close]: the pipeline leaves the handler map, then every running
    plugin is closed, in order. *)
Definition HTTPPipeline_Close (hp : HTTPPipeline)
    (handlers : gmap string HTTPPipeline)
    : gmap string HTTPPipeline * list Event :=
  (delete (spec_Name (hp_spec hp)) handlers,
   (λ runningPlugin, EvClose (rp_plugin runningPlugin))
     <$> hp_runningPlugins hp).

End Lifetime.

(** ** The path adaptor of [pkg/util/httpadaptor] *)

Module HTTPAdaptor.

(** [strings.HasPrefix] and [strings.TrimPrefix] of the standard
    library, on strings as sequences of bytes. *)
Fixpoint strings_HasPrefix (s prefix : string) {struct prefix} : bool :=
  match prefix with
  | EmptyString => true
  | String c prefix' =>
    match s with
    | EmptyString => false
    | String d s' =>
      if decide (c = d) then strings_HasPrefix s' prefix' else false
    end
  end.

(** [s[n:]], for [n] within the string. *)
Fixpoint sliceFrom (n : nat) (s : string) : string :=
  match n, s with
  | S n', String _ s' => sliceFrom n' s'
  | _, _ => s
  end.

Definition strings_TrimPrefix (s prefix : string) : string :=
  if strings_HasPrefix s prefix then sliceFrom (String.length prefix) s
  else s.

(** The line [newPathAdaptor] logs when the regexp does not compile. *)
Inductive AdaptorLog :=
| BugCompileRegexp (regexp : string).

Section PathAdaptor.

(** [regexp.Compile] and [Regexp.ReplaceAllString] of the standard
    library; [Compile] gives nothing when it returns an error. *)
Context {Regexp : Type}.
Context (regexp_Compile : string → option Regexp).
Context (Regexp_ReplaceAllString : Regexp → string → string → string).

Record RegexpReplace := {
  rr_Regexp : string;
  rr_Replace : string;
  rr_re : option Regexp
}.

Record pathAdaptorSpec := {
  pas_Replace : string;
  pas_AddPrefix : string;
  pas_TrimPrefix : string;
  pas_RegexpReplace : option RegexpReplace
}.

Record pathAdaptor := {
  pa_spec : pathAdaptorSpec
}.

(** [newPathAdaptor] writes the compiled regexp into the spec it was
    given and keeps that spec. *)
Definition newPathAdaptor (spec : pathAdaptorSpec)
    : pathAdaptor * list AdaptorLog :=
  match pas_RegexpReplace spec with
  | Some regexpReplace =>
    let re := regexp_Compile (rr_Regexp regexpReplace) in
    let spec' :=
      {| pas_Replace := pas_Replace spec;
         pas_AddPrefix := pas_AddPrefix spec;
         pas_TrimPrefix := pas_TrimPrefix spec;
         pas_RegexpReplace :=
           Some {| rr_Regexp := rr_Regexp regexpReplace;
                   rr_Replace := rr_Replace regexpReplace;
                   rr_re := re |} |} in
    ({| pa_spec := spec' |},
     match re with
     | None => [BugCompileRegexp (rr_Regexp regexpReplace)]
     | Some _ => []
     end)
  | None => ({| pa_spec := spec |}, [])
  end.

Definition Adapt (a : pathAdaptor) (path : string) : string :=
  if decide (String.length (pas_Replace (pa_spec a)) ≠ 0)
  then pas_Replace (pa_spec a)
  else if decide (String.length (pas_AddPrefix (pa_spec a)) ≠ 0)
  then pas_AddPrefix (pa_spec a) +:+ path
  else if decide (String.length (pas_TrimPrefix (pa_spec a)) ≠ 0)
  then strings_TrimPrefix path (pas_TrimPrefix (pa_spec a))
  else
    match pas_RegexpReplace (pa_spec a) with
    | Some regexpReplace =>
      match rr_re regexpReplace with
      | Some re =>
        Regexp_ReplaceAllString re path (rr_Replace regexpReplace)
      | None => path
      end
    | None => path
    end.

(** A spec that only adds a prefix, and one that only trims one. *)
Definition addingPrefix (prefix : string) : pathAdaptorSpec :=
  {| pas_Replace := ""; pas_AddPrefix := prefix; pas_TrimPrefix := "";
     pas_RegexpReplace := None |}.

Definition trimmingPrefix (prefix : string) : pathAdaptorSpec :=
  {| pas_Replace := ""; pas_AddPrefix := ""; pas_TrimPrefix := prefix;
     pas_RegexpReplace := None |}.

End PathAdaptor.

End HTTPAdaptor.

(** ** What [Validate] asks of a spec, stated apart from its loops *)

Section Accepted.

Context `{World}.
Context (pluginBook : gmap string PluginRecord).

(** A plugin the loop over the plugins lets through: it has a name and
    a kind, it is not called [END], its kind is in the plugin book and
    its spec is valid for that kind. *)
Definition pluginAccepted (pluginBuffs : gmap string PluginSpec)
    (plugin : PluginSpec) : Prop :=
  meta_Name (metaOf plugin) ≠ "" ∧
  meta_Kind (metaOf plugin) ≠ "" ∧
  meta_Name (metaOf plugin) ≠ LabelEND ∧
  ∃ pr, pluginBook !! meta_Kind (metaOf plugin) = Some pr ∧
        pr_Validate pr plugin (pluginBuffs !! meta_Name (metaOf plugin)) = true.

(** A flow the backward scan lets through: every step names a plugin
    of the spec, every key of its jump table is a result of the kind
    of that plugin, and every target is [END] or the plugin of a later
    step. *)
Definition flowAccepted (plugins : list PluginSpec) (flow : list Flow) : Prop :=
  ∀ (i : nat) (f : Flow), flow !! i = Some f →
    ∃ plugin pr,
      plugin ∈ plugins ∧
      meta_Name (metaOf plugin) = flow_Plugin f ∧
      pluginBook !! meta_Kind (metaOf plugin) = Some pr ∧
      ∀ result label, flow_JumpIf f !! result = Some label →
        result ∈ pr_Results pr ∧
        (label = LabelEND ∨
         ∃ (j : nat) (f' : Flow),
           i < j ∧ flow !! j = Some f' ∧ flow_Plugin f' = label).

End Accepted.

(** ** Executing plugins, stated with the interface alone *)

Section Executed.

Context `{World}.

(** What it is to execute the running plugins at the given indices,
    apart from the code of [Handle]: the [Handle] of each plugin is
    called on the context the call before left behind, and the stat
    of a call has the name and the kind of the plugin, the result
    label the call returned and the time that passed from before the
    call to after it. The stats, and the context after the last
    call. *)
Fixpoint handled (rps : list runningPlugin) (idxs : list nat)
    (ctx : HTTPContext) : PipelineContext * HTTPContext :=
  match idxs with
  | [] => ([], ctx)
  | i :: idxs' =>
    match rps !! i with
    | None => ([], ctx)
    | Some rp =>
      let returned := Plugin_Handle (rp_plugin rp) ctx in
      let rest := handled rps idxs' returned.2 in
      ({| stat_Name := meta_Name (rp_meta rp);
          stat_Kind := meta_Kind (rp_meta rp);
          stat_Result := returned.1;
          stat_Duration := (Now returned.2 - Now ctx)%Z |} :: rest.1,
       rest.2)
    end
  end.

End Executed.

(** * Properties *)

(** ** Validation *)

Section Validation.

Context `{World}.
Context (pluginBook : gmap string PluginRecord).

Lemma StrInSlice_elem_of (s : string) (l : list string) :
  StrInSlice s l = true ↔ s ∈ l.
Proof.
  induction l as [|x l IH]; simpl.
  - split; [discriminate | intros Hin; inversion Hin].
  - case_decide as Hx.
    + subst. split; [intros _; left | done].
    + rewrite IH. split; [intros Hin; by right |].
      intros Hin. apply elem_of_cons in Hin as [-> | Hin]; [done | exact Hin].
Qed.

(** A plugin called [END] stops the loop over the plugins, wherever
    the loop stands when it meets it. *)
Lemma validatePlugins_END (pluginBuffs : gmap string PluginSpec)
    (plugins : list PluginSpec) (plugin : PluginSpec) :
  plugin ∈ plugins →
  meta_Name (metaOf plugin) = LabelEND →
  ∀ pluginRecords,
    is_Err (validatePlugins pluginBook pluginBuffs pluginRecords plugins).
Proof.
  intros Hin HEND.
  induction plugins as [|p plugins IH]; intros pluginRecords.
  - inversion Hin.
  - simpl. apply elem_of_cons in Hin as [<- | Hin].
    + unfold validatePlugin.
      destruct (validatePluginMeta (metaOf plugin)); [done |].
      rewrite decide_True by done. done.
    + destruct (validatePlugin _ _ _ p); [| done].
      by apply IH.
Qed.

(** The check for a repeated plugin never fires: its set stays as it
    was given. *)
Lemma checkRepeated_inert (plugins : gset string) (flow : list Flow) :
  (∀ f, f ∈ flow → flow_Plugin f ∉ plugins) →
  checkRepeated plugins flow = None.
Proof.
  induction flow as [|f flow IH]; intros Hout; simpl; [done |].
  rewrite decide_False by (apply Hout; left).
  apply IH. intros f' Hf'. apply Hout. by right.
Qed.

Lemma checkRepeated_empty (flow : list Flow) : checkRepeated ∅ flow = None.
Proof. apply checkRepeated_inert. intros f _. apply not_elem_of_empty. Qed.

Lemma checkJumpIf_None (f : Flow) (pr : PluginRecord)
    (labelsValid : gset string) (entries : list (string * string)) :
  checkJumpIf f pr labelsValid entries = None →
  ∀ result label, (result, label) ∈ entries →
    result ∈ pr_Results pr ∧ label ∈ labelsValid.
Proof.
  induction entries as [|[r l] entries IH]; simpl; intros Hok result label Hin.
  - inversion Hin.
  - destruct (StrInSlice r (pr_Results pr)) eqn:Hr; simpl in Hok; [| done].
    case_decide as Hl; [| done].
    apply elem_of_cons in Hin as [Heq | Hin].
    + simplify_eq. split; [by apply StrInSlice_elem_of | done].
    + by apply IH.
Qed.

(** The backward scan: when it accepts, the targets of a step lie in
    the labels the scan started with or among the names of the steps
    it had passed before. *)
Lemma scanFlow_Ok (pluginRecords : gmap string PluginRecord)
    (backwards : list Flow) :
  ∀ labelsValid labels',
    scanFlow pluginRecords labelsValid backwards = Ok labels' →
    ∀ later f earlier result label,
      backwards = later ++ f :: earlier →
      flow_JumpIf f !! result = Some label →
      (∃ pr, pluginRecords !! flow_Plugin f = Some pr ∧ result ∈ pr_Results pr) ∧
      (label ∈ labelsValid ∨ ∃ f', f' ∈ later ∧ flow_Plugin f' = label).
Proof.
  induction backwards as [|g backwards IH];
    intros labelsValid labels' Hscan later f earlier result label Hsplit Hjump.
  - by destruct later.
  - simpl in Hscan.
    destruct (pluginRecords !! flow_Plugin g) as [pr|] eqn:Hpr; [| done].
    destruct (checkJumpIf g pr labelsValid _) eqn:Hcheck; [done |].
    destruct later as [|g' later]; simpl in Hsplit; simplify_eq.
    + apply elem_of_map_to_list in Hjump.
      destruct (checkJumpIf_None _ _ _ _ Hcheck result label Hjump) as [Hr Hl].
      split; [by exists pr | by left].
    + destruct (IH _ _ Hscan later f earlier result label eq_refl Hjump)
        as [Hrec [Hl | (f' & Hf' & Hname)]].
      * split; [done |].
        apply elem_of_union in Hl as [Hl | Hl]; [| by left].
        apply elem_of_singleton in Hl. right. exists g'. split; [left | done].
      * split; [done |]. right. exists f'. split; [by right | done].
Qed.

(** The scan sets out with [END] alone and ends with [END] and the
    name of every step. *)
Lemma scanFlow_labels (pluginRecords : gmap string PluginRecord)
    (backwards : list Flow) :
  ∀ labelsValid labels',
    scanFlow pluginRecords labelsValid backwards = Ok labels' →
    labels' = list_to_set (flow_Plugin <$> backwards) ∪ labelsValid.
Proof.
  induction backwards as [|g backwards IH]; intros labelsValid labels' Hscan;
    simpl in Hscan.
  - simplify_eq. simpl. by rewrite (left_id_L ∅ (∪)).
  - destruct (pluginRecords !! flow_Plugin g) as [pr|]; [| done].
    destruct (checkJumpIf g pr labelsValid _); [done |].
    rewrite (IH _ _ Hscan). simpl.
    by rewrite (assoc_L (∪)), (comm_L (∪) (list_to_set _)).
Qed.

(** What an accepted spec is known to satisfy in its flow. *)
Lemma Validate_Ok_forward (s : Spec) (config : RawConfig) :
  Validate pluginBook s config = Ok () →
  ∀ i f result label,
    spec_Flow s !! i = Some f →
    flow_JumpIf f !! result = Some label →
    label = LabelEND ∨
    ∃ j f', i < j ∧ spec_Flow s !! j = Some f' ∧ flow_Plugin f' = label.
Proof.
  unfold Validate. intros Hok i f result label Hi Hjump.
  destruct (extractPluginsData config); [| done].
  destruct (validatePlugins _ _ _ _) as [pluginRecords|]; [| done].
  destruct (checkRepeated _ _); [done |].
  destruct (scanFlow _ _ _) as [labels'|] eqn:Hscan; [| done].
  pose proof (take_drop_middle _ _ _ Hi) as Hsplit.
  assert (rev (spec_Flow s) =
          rev (drop (S i) (spec_Flow s)) ++ f :: rev (take i (spec_Flow s)))
    as Hrev.
  { rewrite <- Hsplit at 1. rewrite rev_app_distr. simpl.
    by rewrite <- app_assoc. }
  destruct (scanFlow_Ok _ _ _ _ Hscan _ _ _ _ _ Hrev Hjump)
    as [_ [Hl | (f' & Hf' & Hname)]].
  - left. by apply elem_of_singleton in Hl.
  - right. apply list_elem_of_In, in_rev, list_elem_of_In in Hf'.
    apply list_elem_of_lookup in Hf' as [k Hk].
    rewrite lookup_drop in Hk.
    exists (S i + k), f'. split; [lia | done].
Qed.

(** C2. [Validate] rejects every spec in which a step of the flow has
    a jump target that is neither [END] nor the name of a later step:
    the backward scan starts from the labels [{END}] and adds the name
    of a step only after it has checked the targets of that step, so a
    jump to the step itself or to an earlier one is not among the valid
    labels. *)
Theorem Validate_rejects_backward_jump (s : Spec) (config : RawConfig)
    (i : nat) (f : Flow) (result label : string) :
  spec_Flow s !! i = Some f →
  flow_JumpIf f !! result = Some label →
  label ≠ LabelEND →
  (∀ j f', i < j → spec_Flow s !! j = Some f' → flow_Plugin f' ≠ label) →
  is_Err (Validate pluginBook s config).
Proof.
  intros Hi Hjump HEND Hlater.
  destruct (Validate pluginBook s config) as [[]|e] eqn:Hv; [| done].
  destruct (Validate_Ok_forward _ _ Hv _ _ _ _ Hi Hjump)
    as [-> | (j & f' & Hj & Hf' & Hname)]; [done |].
  by destruct (Hlater j f' Hj Hf').
Qed.

(** C7. [Validate] fails on every spec that has a plugin whose name is
    [END], compared letter for letter. *)
Theorem Validate_rejects_END (s : Spec) (config : RawConfig)
    (plugin : PluginSpec) :
  plugin ∈ spec_Plugins s →
  meta_Name (metaOf plugin) = LabelEND →
  is_Err (Validate pluginBook s config).
Proof.
  intros Hin HEND. unfold Validate.
  destruct (extractPluginsData config) as [pluginsData|]; [| done].
  pose proof (validatePlugins_END (convertToPluginBuffs pluginsData)
                _ _ Hin HEND ∅) as Herr.
  by destruct (validatePlugins _ _ _ _).
Qed.

End Validation.

(** ** Construction *)

Section Construction.

Context `{World}.
Context (pluginBook : gmap string PluginRecord).

(** What the loop that builds the plugins leaves behind: a running
    plugin for every entry, in order, each built by the constructor of
    its kind from its spec and the plugin of its name in [prev], and
    one constructor call for each. *)
Lemma buildPlugins_Ok (prev : option HTTPPipeline)
    (entries : list (PluginSpec * gmap string string)) :
  ∀ rps events,
    buildPlugins pluginBook prev entries = Ok (rps, events) →
    (λ rp, (rp_spec rp, rp_jumpIf rp)) <$> rps = entries ∧
    Forall (λ rp,
      rp_meta rp = metaOf (rp_spec rp) ∧
      pluginBook !! meta_Kind (rp_meta rp) = Some (rp_pr rp) ∧
      rp_plugin rp =
        pr_NewFunc (rp_pr rp) (rp_spec rp)
          (prevValueOf prev (meta_Name (rp_meta rp)))) rps ∧
    events =
      (λ rp, EvNewFunc (meta_Kind (rp_meta rp)) (rp_spec rp)
               (prevValueOf prev (meta_Name (rp_meta rp)))) <$> rps.
Proof.
  induction entries as [|[spec jumpIf] entries IH]; intros rps events Hbuild;
    cbn [buildPlugins] in Hbuild; cbv zeta in Hbuild.
  - by simplify_eq.
  - destruct (pluginBook !! meta_Kind (metaOf spec)) as [pr|] eqn:Hpr; [| done].
    destruct (callable pr _); [| done].
    destruct (buildPlugins pluginBook prev entries) as [[rps' events']|];
      [| done].
    simplify_eq.
    destruct (IH _ _ eq_refl) as (Hentries & Hall & Hevents).
    split_and!.
    + rewrite fmap_cons. by f_equal.
    + by constructor.
    + rewrite fmap_cons. by f_equal.
Qed.



Lemma getRunningPlugin_loop_Some (rps : list runningPlugin)
    (name : string) (rp : runningPlugin) :
  getRunningPlugin_loop rps name = Some rp →
  rp ∈ rps ∧ meta_Name (rp_meta rp) = name.
Proof.
  induction rps as [|rp' rps IH]; simpl; [done |].
  case_decide as Hname.
  - intros; simplify_eq. split; [left | done].
  - intros Hget. destruct (IH Hget). split; [by right | done].
Qed.

Lemma getRunningPlugin_loop_None (rps : list runningPlugin) (name : string) :
  getRunningPlugin_loop rps name = None ↔
  ∀ rp, rp ∈ rps → meta_Name (rp_meta rp) ≠ name.
Proof.
  induction rps as [|rp' rps IH]; simpl.
  - split; [intros _ rp Hin; inversion Hin | done].
  - case_decide as Hname.
    + split; [done |]. intros Hall. destruct (Hall rp'); [left | done].
    + rewrite IH. split.
      * intros Hall rp Hin. apply elem_of_cons in Hin as [-> | Hin]; auto.
      * intros Hall rp Hin. apply Hall. by right.
Qed.

Lemma entries_no_flow (rps : list runningPlugin) :
  ∀ plugins : list PluginSpec,
    (λ rp, (rp_spec rp, rp_jumpIf rp)) <$> rps =
      (λ pluginSpec, (pluginSpec, ∅)) <$> plugins →
    rp_spec <$> rps = plugins ∧ Forall (λ rp, rp_jumpIf rp = ∅) rps.
Proof.
  induction rps as [|rp rps IH]; intros [|p plugins] Heq;
    rewrite ?fmap_cons in Heq; simplify_eq; [done |].
  destruct (IH plugins) as [Hspecs Hjumps]; [done |].
  split; [rewrite fmap_cons; by f_equal | by constructor].
Qed.

(** With no flow, the running plugins are the plugins of the spec in
    the order they are declared, each with an empty jump table. *)
Lemma New_no_flow (spec : Spec) (prev : option HTTPPipeline)
    (handlers : gmap string HTTPPipeline) (r : NewResult) :
  spec_Flow spec = [] →
  New pluginBook spec prev handlers = Ok r →
  rp_spec <$> hp_runningPlugins (new_hp r) = spec_Plugins spec ∧
  Forall (λ rp, rp_jumpIf rp = ∅ ∧ rp_meta rp = metaOf (rp_spec rp))
    (hp_runningPlugins (new_hp r)).
Proof.
  intros Hflow HNew. unfold New, resolveRunningPlugins in HNew.
  rewrite Hflow in HNew. simpl in HNew.
  destruct (buildPlugins _ _ _) as [[rps events]|] eqn:Hbuild; [| done].
  simplify_eq. simpl.
  destruct (buildPlugins_Ok _ _ _ _ Hbuild) as (Hentries & Hall & _).
  destruct (entries_no_flow _ _ Hentries) as [Hspecs Hjumps].
  split; [done |].
  rewrite Forall_forall in Hall, Hjumps. apply Forall_forall. intros rp Hin.
  split; [by apply Hjumps | by apply Hall].
Qed.


End Construction.

(** ** Handling a request *)

Section Handling.

Context `{World}.

Implicit Types (rps rest : list runningPlugin) (rp : runningPlugin).
Implicit Types (idxs : list nat) (stats : PipelineContext).
Implicit Types (st : WalkState) (ctx : HTTPContext).

Lemma drop_cons_inv rps (i : nat) rp rest :
  drop i rps = rp :: rest → rps !! i = Some rp ∧ drop (S i) rps = rest.
Proof.
  intros Hdrop. split.
  - apply (f_equal (λ l, l !! 0)) in Hdrop. rewrite lookup_drop in Hdrop.
    by rewrite Nat.add_0_r in Hdrop.
  - apply (f_equal (drop 1)) in Hdrop. rewrite drop_drop in Hdrop.
    by rewrite Nat.add_1_r in Hdrop.
Qed.

Lemma drop_nil_lookup rps (i k : nat) :
  drop i rps = [] → i ≤ k → rps !! k = None.
Proof.
  intros Hdrop Hk. apply lookup_ge_None_2.
  apply (f_equal length) in Hdrop. rewrite length_drop in Hdrop.
  simpl in Hdrop. lia.
Qed.

(** A plugin of another name can be put in front of a walk. *)
Lemma forwardWalk_skip rps (from : nat) (next : string) idxs stats rp :
  rps !! from = Some rp →
  meta_Name (rp_meta rp) ≠ next →
  forwardWalk rps (S from) (Some next) idxs stats →
  forwardWalk rps from (Some next) idxs stats.
Proof.
  intros Hrp Hname.
  destruct idxs as [|i idxs], stats as [|stat stats]; simpl; try done.
  - intros [HEND | Hnone]; [by left | right].
    intros k rp' Hk Hrp'.
    destruct (decide (k = from)) as [-> | Hne]; [by simplify_eq |].
    apply (Hnone k); [lia | done].
  - intros [(name & rp' & Hnext & HEND & Hle & Hrp' & Hname' & Hskip) Hrest].
    split; [| done].
    exists name, rp'. simplify_eq. split_and!; try done; [lia |].
    intros k rp'' Hk Hki Hrp''.
    destruct (decide (k = from)) as [-> | Hne]; [by simplify_eq |].
    apply (Hskip k); [lia | lia | done].
Qed.

(** The loop of [Handle], seen from outside: it runs the plugins at
    some indices, one after the other, and these indices are a forward
    walk from where the loop stands. *)
Lemma walk_forward rps :
  ∀ rest (i : nat) (next : string) st,
    drop i rps = rest →
    ∃ idxs stats,
      replay rps idxs (ws_ctx st) = (stats, ws_ctx (walk rest next st)) ∧
      ws_stats (walk rest next st) = ws_stats st ++ stats ∧
      ws_logs (walk rest next st) = ws_logs st ++ bugLogs rps idxs stats ∧
      forwardWalk rps i (Some next) idxs stats.
Proof.
  induction rest as [|rp rest IH]; intros i next st Hdrop.
  { exists [], []. simpl. rewrite !app_nil_r. split_and!; try done.
    right. intros k rp Hk Hrp. by rewrite (drop_nil_lookup _ _ _ Hdrop Hk) in Hrp. }
  destruct (drop_cons_inv _ _ _ _ Hdrop) as [Hi Hrest].
  cbn [walk].
  destruct (decide (next = LabelEND)) as [HEND | HEND].
  { exists [], []. simpl. rewrite !app_nil_r. split_and!; try done. by left. }
  destruct (decide (next ≠ meta_Name (rp_meta rp))) as [Hother | Hsame].
  { destruct (IH (S i) next st Hrest) as (idxs & stats & Hreplay & Hstats & Hlogs & Hwalk).
    exists idxs, stats. split_and!; try done.
    by apply (forwardWalk_skip _ _ _ _ _ rp). }
  assert (meta_Name (rp_meta rp) = next) as Hname.
  { destruct (decide (meta_Name (rp_meta rp) = next)); [done |].
    destruct Hsame. congruence. }
  destruct (runPlugin rp (ws_ctx st)) as [stat ctx'] eqn:Hrun.
  assert (∀ target, labelTarget rps i (stat_Result stat) = target →
            forwardWalk rps i (Some next) [i] [stat] = 
            ((∃ name rp', Some next = Some name ∧ name ≠ LabelEND ∧ i ≤ i ∧
                rps !! i = Some rp' ∧ meta_Name (rp_meta rp') = name ∧
                ∀ k rp'', i ≤ k → k < i → rps !! k = Some rp'' →
                  meta_Name (rp_meta rp'') ≠ name) ∧ walkEnds rps (S i) target))
    as Hone by (by intros target <-).
  assert (∃ name rp', Some next = Some name ∧ name ≠ LabelEND ∧ i ≤ i ∧
            rps !! i = Some rp' ∧ meta_Name (rp_meta rp') = name ∧
            ∀ k rp'', i ≤ k → k < i → rps !! k = Some rp'' →
              meta_Name (rp_meta rp'') ≠ name) as Hhere.
  { exists next, rp. split_and!; try done. intros; lia. }
  assert (replay rps [i] (ws_ctx st) = ([stat], ctx')) as Hreplay1.
  { cbn [replay]. by rewrite Hi, Hrun. }
  destruct (decide (stat_Result stat ≠ "")) as [Hres | Hres].
  - assert (bugLogs rps [i] [stat] = bugLog rp (stat_Result stat)) as Hlog1.
    { cbn [bugLogs]. rewrite decide_True by done. rewrite Hi.
      cbn [from_option]. by rewrite app_nil_r. }
    assert (labelTarget rps i (stat_Result stat) =
            rp_jumpIf rp !! stat_Result stat) as Htarget.
    { unfold labelTarget. rewrite decide_False by done. by rewrite Hi. }
    assert (rp_jumpIf rp !! stat_Result stat = None →
            ∃ idxs stats,
              replay rps idxs (ws_ctx st) = (stats, ctx') ∧
              ws_stats st ++ [stat] = ws_stats st ++ stats ∧
              ws_logs st ++ bugLog rp (stat_Result stat) =
                ws_logs st ++ bugLogs rps idxs stats ∧
              forwardWalk rps i (Some next) idxs stats) as Hstop.
    { intros Hnone. exists [i], [stat]. split_and!; try done.
      - by rewrite Hlog1.
      - rewrite (Hone None) by (by rewrite Htarget). by split. }
    destruct (decide (size (rp_jumpIf rp) = 0)) as [Hsize | Hsize].
    { apply Hstop. apply map_size_empty_iff in Hsize. rewrite Hsize.
      apply lookup_empty. }
    destruct (rp_jumpIf rp !! stat_Result stat) as [next'|] eqn:Hjump;
      [| by apply Hstop].
    destruct (IH (S i) next'
                {| ws_ctx := ctx'; ws_stats := ws_stats st ++ [stat];
                   ws_logs := ws_logs st ++ bugLog rp (stat_Result stat) |}
                Hrest)
      as (idxs & stats & Hreplay & Hstats & Hlogs & Hwalk).
    cbn [ws_ctx ws_stats ws_logs] in Hreplay, Hstats, Hlogs.
    exists (i :: idxs), (stat :: stats). split_and!.
    + cbn [replay]. rewrite Hi, Hrun. by rewrite Hreplay.
    + rewrite Hstats. by rewrite <- app_assoc.
    + rewrite Hlogs. cbn [bugLogs]. rewrite decide_True by done. rewrite Hi.
      cbn [from_option]. by rewrite <- app_assoc.
    + cbn [forwardWalk]. split; [done |]. by rewrite Htarget.
  - assert (stat_Result stat = "") as Hempty.
    { destruct (decide (stat_Result stat = "")); [done | by destruct Hres]. }
    assert (labelTarget rps i (stat_Result stat) =
            (λ rp, meta_Name (rp_meta rp)) <$> rps !! S i)
      as Htarget.
    { unfold labelTarget. by rewrite decide_True by done. }
    destruct rest as [|nx rest'].
    + exists [i], [stat]. cbn [walk]. split_and!.
      * exact Hreplay1.
      * done.
      * cbn [bugLogs]. rewrite decide_False by done. by rewrite !app_nil_r.
      * rewrite (Hone None); [by split |].
        rewrite Htarget. by rewrite (drop_nil_lookup _ _ _ Hrest (le_n _)).
    + destruct (drop_cons_inv _ _ _ _ Hrest) as [Hnx _].
      destruct (IH (S i) (meta_Name (rp_meta nx))
                  {| ws_ctx := ctx'; ws_stats := ws_stats st ++ [stat];
                     ws_logs := ws_logs st |} Hrest)
        as (idxs & stats & Hreplay & Hstats & Hlogs & Hwalk).
      cbn [ws_ctx ws_stats ws_logs] in Hreplay, Hstats, Hlogs.
      exists (i :: idxs), (stat :: stats). split_and!.
      * cbn [replay]. rewrite Hi, Hrun. by rewrite Hreplay.
      * rewrite Hstats. by rewrite <- app_assoc.
      * rewrite Hlogs. cbn [bugLogs]. by rewrite decide_False by done.
      * cbn [forwardWalk]. split; [done |]. by rewrite Htarget, Hnx.
Qed.

(** A forward walk visits indices of the running plugins in strictly
    increasing order, and records one stat at each. *)
Lemma forwardWalk_sorted rps :
  ∀ idxs stats (from : nat) (next : option string),
    forwardWalk rps from next idxs stats →
    StronglySorted lt idxs ∧
    Forall (λ j, from ≤ j < length rps) idxs ∧
    length idxs = length stats.
Proof.
  induction idxs as [|i idxs IH]; intros [|stat stats] from next Hwalk;
    try done.
  { split_and!; [constructor | constructor | done]. }
  cbn [forwardWalk] in Hwalk.
  destruct Hwalk as [(name & rp & _ & _ & Hle & Hrp & _) Hrest].
  destruct (IH _ _ _ Hrest) as (Hsorted & Hbounds & Hlen).
  apply lookup_lt_Some in Hrp.
  split_and!.
  - constructor; [done |].
    eapply Forall_impl; [exact Hbounds |]. simpl. lia.
  - constructor; [lia |].
    eapply Forall_impl; [exact Hbounds |]. simpl. lia.
  - simpl. by rewrite Hlen.
Qed.

(** A plugin whose result label is not empty and not a key of its
    jump table is the last one of a walk. *)
Lemma forwardWalk_stops rps :
  ∀ idxs stats (from : nat) (next : option string) (k i : nat) rp stat,
    forwardWalk rps from next idxs stats →
    idxs !! k = Some i →
    stats !! k = Some stat →
    rps !! i = Some rp →
    stat_Result stat ≠ "" →
    rp_jumpIf rp !! stat_Result stat = None →
    S k = length idxs.
Proof.
  induction idxs as [|j idxs IH];
    intros [|stat' stats] from next k i rp stat Hwalk Hk Hstat Hrp Hres Hjump;
    try done.
  cbn [forwardWalk] in Hwalk. destruct Hwalk as [_ Hrest].
  destruct k as [|k]; simpl in Hk, Hstat; simplify_eq.
  - assert (labelTarget rps i (stat_Result stat) = None) as Htarget.
    { unfold labelTarget. rewrite decide_False by done. by rewrite Hrp. }
    rewrite Htarget in Hrest.
    destruct idxs as [|j idxs], stats as [|stat' stats]; try done.
    cbn [forwardWalk] in Hrest.
    by destruct Hrest as [(name & rp' & Hnone & _) _].
  - simpl. f_equal. by eapply IH.
Qed.

(** The line for a result outside the declared results is among the
    lines logged along the walk. *)
Lemma bugLogs_elem_of rps :
  ∀ idxs stats (k i : nat) rp stat,
    idxs !! k = Some i →
    stats !! k = Some stat →
    rps !! i = Some rp →
    stat_Result stat ≠ "" →
    stat_Result stat ∉ pr_Results (rp_pr rp) →
    BugInvalidResult (stat_Result stat) (pr_Results (rp_pr rp))
      ∈ bugLogs rps idxs stats.
Proof.
  induction idxs as [|j idxs IH];
    intros [|stat' stats] k i rp stat Hk Hstat Hrp Hres Hundeclared;
    try done.
  cbn [bugLogs]. apply elem_of_app.
  destruct k as [|k]; simpl in Hk, Hstat; simplify_eq.
  - left. rewrite decide_True by done. rewrite Hrp. cbn [from_option].
    unfold bugLog.
    destruct (StrInSlice _ _) eqn:Hin; [| left].
    by apply StrInSlice_elem_of in Hin.
  - right. by eapply IH.
Qed.

(** [Handle] on a pipeline that has a running plugin. *)
Lemma Handle_Ok (hp : HTTPPipeline) ctx :
  hp_runningPlugins hp ≠ [] →
  ∃ out idxs ctx',
    Handle hp ctx = Ok out ∧
    replay (hp_runningPlugins hp) idxs ctx = (out_stats out, ctx') ∧
    out_ctx out =
      AddTag (Cat ["pipeline: "; PipelineContext_log (out_stats out)]) ctx' ∧
    out_logs out = bugLogs (hp_runningPlugins hp) idxs (out_stats out) ∧
    forwardWalk (hp_runningPlugins hp) 0
      ((λ rp, meta_Name (rp_meta rp)) <$> head (hp_runningPlugins hp))
      idxs (out_stats out).
Proof.
  intros Hne. unfold Handle.
  destruct (hp_runningPlugins hp) as [|first rest] eqn:Hrps; [done |].
  destruct (walk_forward (first :: rest) (first :: rest) 0
              (meta_Name (rp_meta first))
              {| ws_ctx := ctx; ws_stats := []; ws_logs := [] |} eq_refl)
    as (idxs & stats & Hreplay & Hstats & Hlogs & Hwalk).
  cbn [ws_ctx ws_stats ws_logs] in Hreplay, Hstats, Hlogs.
  rewrite app_nil_l in Hstats, Hlogs.
  eexists _, idxs, _. split; [reflexivity |].
  cbn [out_ctx out_stats out_logs]. rewrite Hstats.
  by split_and!.
Qed.

Lemma Handle_Err (hp : HTTPPipeline) ctx :
  hp_runningPlugins hp = [] →
  Handle hp ctx = Err (PanicIndexOutOfRange 0 0).
Proof. intros Hnil. unfold Handle. by rewrite Hnil. Qed.

Lemma append_empty_r (s : string) : s +:+ "" = s.
Proof.
  induction s as [|a s IH]; [done |].
  change (String a s +:+ "") with (String a (s +:+ "")). by rewrite IH.
Qed.

Lemma PluginStat_log_statLog (ps : PluginStat) :
  PluginStat_log ps = statLog ps.
Proof.
  unfold PluginStat_log, statLog, Cat. cbn [fold_right].
  rewrite append_empty_r.
  destruct (decide (stat_Result ps = "")) as [Hres | Hres].
  - rewrite decide_False by (intros Hne; by apply Hne). by rewrite Hres.
  - by rewrite decide_True by done.
Qed.

Lemma Cat_pipelineTag stats :
  Cat ["pipeline: "; PipelineContext_log stats] = pipelineTag stats.
Proof.
  unfold Cat, PipelineContext_log, pipelineTag. cbn [fold_right].
  rewrite append_empty_r.
  destruct stats as [|stat stats]; [done |].
  rewrite decide_False by done.
  do 2 f_equal. apply list_fmap_ext. intros _ ps _. apply PluginStat_log_statLog.
Qed.

(** What [Handle] does when it runs a plugin is one call of the
    [Handle] of that plugin: the stat has the label the call returned
    and the time it took, and the walk goes on with the context the
    call left. *)
Lemma runPlugin_handled rp ctx :
  runPlugin rp ctx =
    ({| stat_Name := meta_Name (rp_meta rp);
        stat_Kind := meta_Kind (rp_meta rp);
        stat_Result := (Plugin_Handle (rp_plugin rp) ctx).1;
        stat_Duration :=
          (Now (Plugin_Handle (rp_plugin rp) ctx).2 - Now ctx)%Z |},
     (Plugin_Handle (rp_plugin rp) ctx).2).
Proof. unfold runPlugin. by destruct (Plugin_Handle (rp_plugin rp) ctx). Qed.

Lemma replay_handled rps idxs :
  ∀ ctx, replay rps idxs ctx = handled rps idxs ctx.
Proof.
  induction idxs as [|i idxs IH]; intros ctx; cbn [replay handled]; [done |].
  destruct (rps !! i) as [rp|]; [| done].
  rewrite runPlugin_handled, IH. cbv zeta.
  by destruct (handled rps idxs (Plugin_Handle (rp_plugin rp) ctx).2).
Qed.

(** C1. The stats [Handle] records are those of a forward walk through
    the running plugins: there are indices, strictly increasing, such
    that the plugins at these indices, and no others, have their
    [Handle] called, one after the other, each on the context the call
    before left; the stats are those of these calls, one for each and
    in that order, with the label each call returned, and the context
    [Handle] tags is the one the last call left. The walk passes over
    the plugins whose name is not the awaited one, and the name
    awaited after a plugin is the one its result label gives. *)
Theorem Handle_stats_forward_walk (hp : HTTPPipeline) ctx :
  hp_runningPlugins hp ≠ [] →
  ∃ out idxs ctx',
    Handle hp ctx = Ok out ∧
    handled (hp_runningPlugins hp) idxs ctx = (out_stats out, ctx') ∧
    out_ctx out = AddTag (pipelineTag (out_stats out)) ctx' ∧
    StronglySorted lt idxs ∧
    length idxs = length (out_stats out) ∧
    forwardWalk (hp_runningPlugins hp) 0
      ((λ rp, meta_Name (rp_meta rp)) <$> head (hp_runningPlugins hp))
      idxs (out_stats out).
Proof.
  intros Hne.
  destruct (Handle_Ok hp ctx Hne)
    as (out & idxs & ctx' & HHandle & Hreplay & Htag & _ & Hwalk).
  destruct (forwardWalk_sorted _ _ _ _ _ Hwalk) as (Hsorted & _ & Hlen).
  rewrite Cat_pipelineTag in Htag. rewrite replay_handled in Hreplay.
  by exists out, idxs, ctx'.
Qed.

(** In any pipeline, validated or not: when a plugin that [Handle]
    runs answers with a result label that is not empty, not among the
    results its kind declares and not a key of its jump table,
    [Handle] logs the bug and runs no further plugin for the request. *)
Theorem Handle_undeclared_result_stops (hp : HTTPPipeline) ctx :
  hp_runningPlugins hp ≠ [] →
  ∃ out idxs ctx',
    Handle hp ctx = Ok out ∧
    replay (hp_runningPlugins hp) idxs ctx = (out_stats out, ctx') ∧
    out_ctx out = AddTag (pipelineTag (out_stats out)) ctx' ∧
    length idxs = length (out_stats out) ∧
    ∀ (k i : nat) rp stat,
      idxs !! k = Some i →
      out_stats out !! k = Some stat →
      hp_runningPlugins hp !! i = Some rp →
      stat_Result stat ≠ "" →
      stat_Result stat ∉ pr_Results (rp_pr rp) →
      rp_jumpIf rp !! stat_Result stat = None →
      BugInvalidResult (stat_Result stat) (pr_Results (rp_pr rp))
        ∈ out_logs out ∧
      S k = length (out_stats out).
Proof.
  intros Hne.
  destruct (Handle_Ok hp ctx Hne)
    as (out & idxs & ctx' & HHandle & Hreplay & Htag & Hlogs & Hwalk).
  destruct (forwardWalk_sorted _ _ _ _ _ Hwalk) as (_ & _ & Hlen).
  rewrite Cat_pipelineTag in Htag.
  exists out, idxs, ctx'. split_and!; try done.
  intros k i rp stat Hk Hstat Hrp Hres Hundeclared Hjump. split.
  - rewrite Hlogs. by eapply bugLogs_elem_of.
  - rewrite <- Hlen. by eapply forwardWalk_stops.
Qed.

(** C8, as the code has it. After the walk [Handle] adds one tag to
    the request context: [pipeline: ] followed by [<empty>] when no
    stat was recorded, and otherwise by the recorded stats in the
    order of execution joined by [->], a stat being rendered as
    [name(result,duration)] when its result label is not empty and as
    [name(duration)] when it is. *)
Theorem Handle_adds_pipeline_tag (hp : HTTPPipeline) ctx :
  hp_runningPlugins hp ≠ [] →
  ∃ out idxs ctx',
    Handle hp ctx = Ok out ∧
    replay (hp_runningPlugins hp) idxs ctx = (out_stats out, ctx') ∧
    out_ctx out = AddTag (pipelineTag (out_stats out)) ctx'.
Proof.
  intros Hne.
  destruct (Handle_Ok hp ctx Hne)
    as (out & idxs & ctx' & HHandle & Hreplay & Htag & _).
  exists out, idxs, ctx'. split_and!; try done.
  by rewrite <- Cat_pipelineTag.
Qed.

End Handling.

(** ** From the spec to the request *)

Section Lifecycle.

Context `{World}.
Context (pluginBook : gmap string PluginRecord).



(** The loop over the plugins only adds records, under names it has
    not seen. *)
Lemma validatePlugins_mono (pluginBuffs : gmap string PluginSpec)
    (plugins : list PluginSpec) :
  ∀ pluginRecords pluginRecords' (name : string) (pr : PluginRecord),
    validatePlugins pluginBook pluginBuffs pluginRecords plugins
      = Ok pluginRecords' →
    pluginRecords !! name = Some pr →
    pluginRecords' !! name = Some pr.
Proof.
  induction plugins as [|plugin plugins IH];
    intros pluginRecords pluginRecords' name pr Hvalid Hpr;
    cbn [validatePlugins] in Hvalid; [by simplify_eq |].
  destruct (validatePlugin _ _ _ plugin) as [pluginRecords1|] eqn:Hone;
    [| done].
  apply (IH _ _ _ _ Hvalid).
  unfold validatePlugin in Hone.
  destruct (validatePluginMeta _); [done |].
  case_decide; [done |].
  destruct (pluginRecords !! meta_Name (metaOf plugin)) eqn:Hfresh; [done |].
  destruct (pluginBook !! meta_Kind (metaOf plugin)); [| done].
  destruct (pr_Validate _ _ _); [| done].
  simplify_eq. rewrite lookup_insert_ne; [done |].
  intros Heq. rewrite <- Heq in Hpr.
  assert (Some pr = None) as Hno by (rewrite <- Hpr; exact Hfresh).
  discriminate Hno.
Qed.

(** The record kept under the name of a plugin is the entry of its
    kind in the plugin book. *)
Lemma validatePlugins_records (pluginBuffs : gmap string PluginSpec)
    (plugins : list PluginSpec) :
  ∀ pluginRecords pluginRecords' (name : string) (plugin : PluginSpec),
    validatePlugins pluginBook pluginBuffs pluginRecords plugins
      = Ok pluginRecords' →
    findPluginSpec plugins name = Some plugin →
    is_Some (pluginRecords' !! name) ∧
    pluginRecords' !! name = pluginBook !! meta_Kind (metaOf plugin).
Proof.
  induction plugins as [|p plugins IH];
    intros pluginRecords pluginRecords' name plugin Hvalid Hfind;
    cbn [validatePlugins findPluginSpec] in Hvalid, Hfind; [done |].
  destruct (validatePlugin _ _ _ p) as [pluginRecords1|] eqn:Hone; [| done].
  destruct (decide (meta_Name (metaOf p) = name)) as [Hname | Hname].
  - simplify_eq. unfold validatePlugin in Hone.
    destruct (validatePluginMeta _); [done |].
    case_decide; [done |].
    destruct (pluginRecords !! meta_Name (metaOf plugin)); [done |].
    destruct (pluginBook !! meta_Kind (metaOf plugin)) as [pr|] eqn:Hpr;
      [| done].
    destruct (pr_Validate _ _ _); [| done].
    simplify_eq.
    rewrite (validatePlugins_mono _ _ _ _ _ pr Hvalid)
      by apply lookup_insert_eq.
    by split.
  - by apply (IH _ _ _ _ Hvalid).
Qed.

Lemma resolveFlow_Ok (plugins : list PluginSpec) (flow : list Flow) :
  ∀ entries,
    resolveFlow plugins flow = Ok entries →
    Forall2 (λ f entry,
      findPluginSpec plugins (flow_Plugin f) = Some entry.1 ∧
      entry.2 = flow_JumpIf f) flow entries.
Proof.
  induction flow as [|f flow IH]; intros entries Hresolve;
    cbn [resolveFlow] in Hresolve; [simplify_eq; constructor |].
  destruct (findPluginSpec plugins (flow_Plugin f)) as [pluginSpec|] eqn:Hfind;
    [| done].
  destruct (resolveFlow plugins flow) as [rest|]; [| done].
  simplify_eq. constructor; [done | by apply IH].
Qed.

(** In a pipeline built from a spec that [Validate] accepts, every key
    of a jump table is a result its plugin declares: there a result
    label outside the declared results is never a key. *)
Lemma validated_jumpIf_declared (spec : Spec) (config : RawConfig)
    (prev : option HTTPPipeline) (handlers : gmap string HTTPPipeline)
    (r : NewResult) :
  Validate pluginBook spec config = Ok () →
  New pluginBook spec prev handlers = Ok r →
  ∀ rp (result target : string),
    rp ∈ hp_runningPlugins (new_hp r) →
    rp_jumpIf rp !! result = Some target →
    result ∈ pr_Results (rp_pr rp).
Proof.
  intros Hvalid HNew rp result target Hin Hjump.
  destruct (decide (length (spec_Flow spec) = 0)) as [Hflow | Hflow].
  { apply length_zero_iff_nil in Hflow.
    destruct (New_no_flow _ _ _ _ _ Hflow HNew) as [_ Hall].
    rewrite Forall_forall in Hall. destruct (Hall rp Hin) as [Hempty _].
    by rewrite Hempty, lookup_empty in Hjump. }
  unfold New, resolveRunningPlugins in HNew.
  rewrite decide_False in HNew by done.
  destruct (resolveFlow _ _) as [entries|] eqn:Hresolve; [| done].
  destruct (buildPlugins _ _ _) as [[rps events]|] eqn:Hbuild; [| done].
  simplify_eq. cbn [new_hp hp_runningPlugins] in Hin.
  destruct (buildPlugins_Ok _ _ _ _ _ Hbuild) as (Hentries & Hall & _).
  rewrite Forall_forall in Hall.
  destruct (Hall rp Hin) as (Hmeta & Hbook & _).
  apply (list_elem_of_fmap_2 (λ rp, (rp_spec rp, rp_jumpIf rp))) in Hin.
  rewrite Hentries in Hin.
  apply resolveFlow_Ok in Hresolve.
  apply list_elem_of_lookup in Hin as [i Hi].
  destruct (Forall2_lookup_r _ _ _ _ _ Hresolve Hi)
    as (f & Hf & Hfind & Htable).
  cbn [fst snd] in Hfind, Htable.
  unfold Validate in Hvalid.
  destruct (extractPluginsData config) as [pluginsData|]; [| done].
  destruct (validatePlugins _ _ _ _) as [pluginRecords|] eqn:Hplugins;
    [| done].
  destruct (checkRepeated _ _); [done |].
  destruct (scanFlow _ _ _) as [labels|] eqn:Hscan; [| done].
  assert (f ∈ rev (spec_Flow spec)) as Hrev.
  { apply list_elem_of_In, in_rev. rewrite rev_involutive.
    apply list_elem_of_In. by eapply list_elem_of_lookup_2. }
  apply list_elem_of_split in Hrev as (later & earlier & Hsplit).
  rewrite Htable in Hjump.
  destruct (scanFlow_Ok _ _ _ _ Hscan _ _ _ _ _ Hsplit Hjump)
    as [(pr & Hpr & Hresult) _].
  destruct (validatePlugins_records _ _ _ _ _ _ Hplugins Hfind)
    as [_ Hrecord].
  rewrite Hmeta in Hbook. rewrite Hrecord, Hbook in Hpr. by simplify_eq.
Qed.

(** C10. [Handle] reads the name of the first running plugin before
    it walks, so it returns only for a pipeline that has a running
    plugin. A spec with an empty list of plugins and no flow passes
    [Validate] when the key [plugins] is there, [New] builds a
    pipeline without running plugins from it, and [Handle] panics on
    that pipeline with an index out of range. *)
Theorem Handle_needs_running_plugin :
  (∀ (hp : HTTPPipeline) (ctx : HTTPContext),
     is_Ok (Handle hp ctx) ↔ hp_runningPlugins hp ≠ []) ∧
  (∀ (name : string) (prev : option HTTPPipeline)
     (handlers : gmap string HTTPPipeline) (ctx : HTTPContext),
     let s := {| spec_Name := name; spec_Flow := []; spec_Plugins := [] |} in
     Validate pluginBook s {| raw_plugins := None |} = Err ErrPluginsIsRequired ∧
     Validate pluginBook s {| raw_plugins := Some [] |} = Ok () ∧
     ∃ r, New pluginBook s prev handlers = Ok r ∧
          hp_runningPlugins (new_hp r) = [] ∧
          Handle (new_hp r) ctx = Err (PanicIndexOutOfRange 0 0)).
Proof.
  split.
  - intros hp ctx. split.
    + intros HOk Hnil. by rewrite (Handle_Err hp ctx Hnil) in HOk.
    + intros Hne. destruct (Handle_Ok hp ctx Hne) as (out & _ & _ & -> & _).
      done.
  - intros name prev handlers ctx s. split_and!; [done | done |].
    eexists. split; [reflexivity |]. by split.
Qed.

End Lifecycle.

(** ** The credential store *)

Section CredentialStore.

Import BasicAuth.

Context (bcryptVerify : string → string → bool).

(** A store with the empty prefix and no user stays so whatever is
    done to it, calls nothing and matches nobody. *)
Lemma inert_run (ops : list Op) :
  ∀ store : etcdUserCache,
    prefix store = "" →
    users store = ∅ →
    watching store = false →
    Forall (λ seen, seen = SeenMatch false) (run bcryptVerify store ops).2.
Proof.
  induction ops as [|op ops IH]; intros store Hprefix Husers Hwatching;
    cbn [run]; [by constructor |].
  assert (∀ store' seen,
            prefix store' = "" → users store' = ∅ → watching store' = false →
            Forall (λ seen, seen = SeenMatch false) seen →
            Forall (λ seen, seen = SeenMatch false)
              (let '(store'', seen') := run bcryptVerify store' ops in
               (store'', seen ++ seen')).2) as Hstep.
  { intros store' seen Hp Hu Hw Hseen.
    specialize (IH store' Hp Hu Hw).
    destruct (run bcryptVerify store' ops) as [store'' seen']. simpl in *.
    by apply Forall_app. }
  destruct op as [|username password|kvs|]; cbn [apply].
  - unfold WatchChanges. rewrite decide_True by done. by apply Hstep.
  - apply Hstep; [done.. |]. constructor; [| constructor].
    unfold Match. by rewrite Husers, lookup_empty.
  - unfold onSnapshot. rewrite Hwatching. by apply Hstep.
  - by apply Hstep.
Qed.

(** The constructor answers the two questions the test asks of it, and
    never builds a store with the empty prefix: it always scans the
    cluster. *)
Lemma newEtcdUserCache_prefix (cluster : Snapshot) (etcdPrefix : string) :
  prefix (newEtcdUserCache cluster "").1 = "/custom-data/credentials/" ∧
  prefix (newEtcdUserCache cluster "/extra-slash/").1
    = "/custom-data/extra-slash/" ∧
  prefix (newEtcdUserCache cluster etcdPrefix).1 ≠ "" ∧
  (newEtcdUserCache cluster etcdPrefix).2
    = [GetPrefix (normalisePrefix etcdPrefix)].
Proof.
  split_and!; [done | done | | done].
  unfold newEtcdUserCache, normalisePrefix, customDataPrefix.
  cbn [fst prefix]. discriminate.
Qed.

(** C9. A cluster-backed credential store built with the empty prefix
    makes no call to the cluster: told to watch, it subscribes to
    nothing and stays as it is, and over any sequence of watching,
    matching, snapshots and closing, nothing is seen of it but [Match]
    answering [false], for every user name and password. *)
Theorem etcdUserCache_empty_prefix_inert (ops : list Op) :
  WatchChanges emptyPrefixCache = (emptyPrefixCache, []) ∧
  (∀ username password,
     Match bcryptVerify emptyPrefixCache username password = false) ∧
  (∀ seen, seen ∈ (run bcryptVerify emptyPrefixCache ops).2 →
     seen = SeenMatch false).
Proof.
  split_and!.
  - unfold WatchChanges. by rewrite decide_True.
  - intros username password. unfold Match, emptyPrefixCache. cbn [users].
    by rewrite lookup_empty.
  - intros seen Hin.
    pose proof (inert_run ops emptyPrefixCache eq_refl eq_refl eq_refl)
      as Hall.
    rewrite Forall_forall in Hall. by apply Hall.
Qed.

(** The calls of the test on that store: watch, match, close. *)
Example dummy_etcd :
  run bcryptVerify emptyPrefixCache
    [OpWatchChanges; OpMatch "doge" "dogepw"; OpClose] =
  (emptyPrefixCache, [SeenMatch false]).
Proof. reflexivity. Qed.

End CredentialStore.

(** ** The code at work in the small world *)

(** A request through a flow with a forward jump: [a] rejects, the
    walk passes over [b] and runs [c]. *)
Example served_jumping :
  Demo.served Demo.jumping =
    Some (["a"; "c"], ["pipeline: a(invalid,5ns)->c(5ns)"],
          [{| stat_Name := "a"; stat_Kind := "Validator";
              stat_Result := "invalid"; stat_Duration := 5 |};
           {| stat_Name := "c"; stat_Kind := "Mock";
              stat_Result := ""; stat_Duration := 5 |}],
          []).
Proof. vm_compute. reflexivity. Qed.

Example served_passing :
  Demo.served Demo.passing =
    Some (["a"; "b"], ["pipeline: a(5ns)->b(5ns)"],
          [{| stat_Name := "a"; stat_Kind := "Validator";
              stat_Result := ""; stat_Duration := 5 |};
           {| stat_Name := "b"; stat_Kind := "Mock";
              stat_Result := ""; stat_Duration := 5 |}],
          []).
Proof. vm_compute. reflexivity. Qed.

Example validated_demo_specs :
  (λ s, Validate Demo.book s (Demo.config s)) <$>
    [Demo.rejecting; Demo.passing; Demo.jumping; Demo.single;
     Demo.undeclaredStop; Demo.undeclared; Demo.firstEND] =
  [Ok (); Ok (); Ok (); Ok (); Ok ();
   Err (ErrFlow (ErrResultNotIn "a" "oops" ["invalid"]));
   Err (ErrPlugins ErrNameIsEND)].
Proof. vm_compute. reflexivity. Qed.

(** Two ways to learn cheaply that the small world built something. *)
Lemma Demo_created_Ok (s : Spec) (prev : option (@HTTPPipeline Demo.world)) :
  match New Demo.book s prev ∅ with Ok _ => true | Err _ => false end = true →
  New Demo.book s prev ∅ = Ok (Demo.created s prev).
Proof. unfold Demo.created. by destruct (New Demo.book s prev ∅). Qed.

Lemma Demo_pipeline_running (s : Spec) :
  negb (Nat.eqb (length (hp_runningPlugins (Demo.pipeline s))) 0) = true →
  hp_runningPlugins (Demo.pipeline s) ≠ [].
Proof. by destruct (hp_runningPlugins (Demo.pipeline s)). Qed.

(** The flow whose last step jumps back to the first is turned down. *)
Lemma Validate_rejects_backward_jump_witness :
  is_Err (Validate Demo.book Demo.backward (Demo.config Demo.backward)).
Proof.
  apply (Validate_rejects_backward_jump Demo.book Demo.backward
           (Demo.config Demo.backward) 1
           (Demo.step "b" [("fallback", "a")]) "fallback" "a").
  - reflexivity.
  - vm_compute. reflexivity.
  - discriminate.
  - intros [|[|j]] f' Hj Hf'; [lia | lia | discriminate].
Defined.

(** A spec with a plugin called [END] is turned down; a plugin called
    [end] is another matter. *)
Lemma Validate_rejects_END_witness :
  is_Err (Validate Demo.book Demo.namedEND (Demo.config Demo.namedEND)).
Proof.
  apply (Validate_rejects_END Demo.book Demo.namedEND
           (Demo.config Demo.namedEND) (Demo.plug "END" "Mock" "")).
  - right. left.
  - vm_compute. reflexivity.
Defined.

Example Validate_accepts_lower_case_end :
  Validate Demo.book
    {| spec_Name := "pipeline-demo"; spec_Flow := [];
       spec_Plugins := [Demo.plug "end" "Mock" ""] |}
    {| raw_plugins := Some [Demo.plug "end" "Mock" ""] |} = Ok ().
Proof. vm_compute. reflexivity. Qed.

(** C3, where the code falls short. The flow of [Demo.repeated] names
    the plugin [a] in two steps, and [Validate] accepts the spec: the
    set the check for a repeated plugin looks into is never added to. *)
Theorem Validate_accepts_repeated_plugin :
  flow_Plugin <$> spec_Flow Demo.repeated = ["a"; "a"] ∧
  checkRepeated ∅ (spec_Flow Demo.repeated) = None ∧
  Validate Demo.book Demo.repeated (Demo.config Demo.repeated) = Ok ().
Proof. split_and!; vm_compute; reflexivity. Qed.



(** The events of that reload, by name. *)
Example renewed_events :
  (λ ev : @Event Demo.world,
     match ev with
         | EvNewFunc kind _ prevValue =>
             ("NewFunc", kind, Demo.mock_name <$> prevValue)
         | EvClose plugin => ("Close", Demo.mock_kind plugin,
                              Some (Demo.mock_name plugin))
         | EvStore name _ => ("Store", name, None)
         end) <$> new_events (Demo.renewed Demo.passing Demo.single) =
  [("NewFunc", "Validator", Some "a");
   ("Close", "Mock", Some "b");
   ("Store", "pipeline-demo", None)].
Proof. vm_compute. reflexivity. Qed.

Lemma Handle_stats_forward_walk_witness :
  ∃ out idxs ctx',
    Handle (Demo.pipeline Demo.jumping) Demo.ctx0 = Ok out ∧
    handled (hp_runningPlugins (Demo.pipeline Demo.jumping)) idxs Demo.ctx0 =
      (out_stats out, ctx') ∧
    out_ctx out =
      @AddTag Demo.world (pipelineTag (H := Demo.world) (out_stats out)) ctx' ∧
    StronglySorted lt idxs ∧
    length idxs = length (out_stats out) ∧
    forwardWalk (hp_runningPlugins (Demo.pipeline Demo.jumping)) 0
      ((λ rp, meta_Name (rp_meta rp)) <$>
         head (hp_runningPlugins (Demo.pipeline Demo.jumping)))
      idxs (out_stats out).
Proof.
  apply (Handle_stats_forward_walk (Demo.pipeline Demo.jumping) Demo.ctx0).
  apply Demo_pipeline_running. vm_compute. reflexivity.
Defined.

(** A pipeline built from a spec [Validate] turns down: the jump table
    of [a] in [Demo.undeclared] has the key [oops], which the kind of
    [a] does not declare. [a] answers [oops], the bug is logged, and
    the walk goes on to [b]. *)
Lemma Handle_undeclared_jump_key_example :
  ∃ out,
    Handle (Demo.pipeline Demo.undeclared) Demo.ctx0 = Ok out ∧
    (λ rp, (meta_Name (rp_meta rp), pr_Results (rp_pr rp))) <$>
      hp_runningPlugins (Demo.pipeline Demo.undeclared) =
      [("a", ["invalid"]); ("b", ["fallback"])] ∧
    (λ stat, (stat_Name stat, stat_Result stat)) <$> out_stats out =
      [("a", "oops"); ("b", "")] ∧
    out_logs out = [BugInvalidResult "oops" ["invalid"]] ∧
    Demo.calls (out_ctx out) = ["a"; "b"].
Proof. eexists. split_and!; vm_compute; reflexivity. Qed.

Lemma Handle_undeclared_result_stops_witness :
  ∃ out idxs ctx',
    Handle (Demo.pipeline Demo.undeclaredStop) Demo.ctx0 = Ok out ∧
    replay (hp_runningPlugins (Demo.pipeline Demo.undeclaredStop)) idxs
      Demo.ctx0 = (out_stats out, ctx') ∧
    out_ctx out =
      @AddTag Demo.world (pipelineTag (H := Demo.world) (out_stats out)) ctx' ∧
    length idxs = length (out_stats out) ∧
    ∀ (k i : nat) rp stat,
      idxs !! k = Some i →
      out_stats out !! k = Some stat →
      hp_runningPlugins (Demo.pipeline Demo.undeclaredStop) !! i = Some rp →
      stat_Result stat ≠ "" →
      stat_Result stat ∉ pr_Results (rp_pr rp) →
      rp_jumpIf rp !! stat_Result stat = None →
      BugInvalidResult (stat_Result stat) (pr_Results (rp_pr rp))
        ∈ out_logs out ∧
      S k = length (out_stats out).
Proof.
  apply (Handle_undeclared_result_stops
           (Demo.pipeline Demo.undeclaredStop) Demo.ctx0).
  apply Demo_pipeline_running. vm_compute. reflexivity.
Defined.



(** C8 as the specification words it fails: for a plugin that answers
    with the empty label the tag has no comma before the duration, and
    when no plugin runs the tag reads [<empty>]. The first pipeline is
    a validated one; the second has a plugin called [END] in front,
    which [New] lets through. *)
Lemma Handle_pipeline_tag_counterexample :
  (∃ out,
     Handle (Demo.pipeline Demo.single) Demo.ctx0 = Ok out ∧
     Demo.tags (out_ctx out) = ["pipeline: a(5ns)"] ∧
     specTag (H := Demo.world) (out_stats out) = "pipeline: a(,5ns)" ∧
     Demo.tags (out_ctx out) ≠ [specTag (H := Demo.world) (out_stats out)]) ∧
  (∃ out,
     Handle (Demo.pipeline Demo.firstEND) Demo.ctx0 = Ok out ∧
     out_stats out = [] ∧
     Demo.tags (out_ctx out) = ["pipeline: <empty>"] ∧
     Demo.tags (out_ctx out) ≠ [specTag (H := Demo.world) (out_stats out)]).
Proof.
  split; eexists;
    (split_and!; [vm_compute; reflexivity.. | vm_compute; discriminate]).
Qed.

Lemma Handle_adds_pipeline_tag_witness :
  ∃ out idxs ctx',
    Handle (Demo.pipeline Demo.jumping) Demo.ctx0 = Ok out ∧
    replay (hp_runningPlugins (Demo.pipeline Demo.jumping)) idxs Demo.ctx0 =
      (out_stats out, ctx') ∧
    out_ctx out =
      @AddTag Demo.world (pipelineTag (H := Demo.world) (out_stats out)) ctx'.
Proof.
  apply (Handle_adds_pipeline_tag (Demo.pipeline Demo.jumping) Demo.ctx0).
  apply Demo_pipeline_running. vm_compute. reflexivity.
Defined.

(** * Further properties of the code *)

(** ** [Validate], from both sides *)

Section ValidateCharacterised.

Context `{World}.
Context (pluginBook : gmap string PluginRecord).

Lemma length_zero_empty (s : string) : String.length s = 0 ↔ s = "".
Proof. by destruct s. Qed.

Lemma findPluginSpec_Some (plugins : list PluginSpec) (name : string)
    (plugin : PluginSpec) :
  findPluginSpec plugins name = Some plugin →
  plugin ∈ plugins ∧ meta_Name (metaOf plugin) = name.
Proof.
  induction plugins as [|p plugins IH]; cbn [findPluginSpec]; [done |].
  case_decide as Hname.
  - intros; simplify_eq. split; [left | done].
  - intros Hfind. destruct (IH Hfind). split; [by right | done].
Qed.

Lemma findPluginSpec_None (plugins : list PluginSpec) (name : string) :
  findPluginSpec plugins name = None ↔
  ∀ plugin, plugin ∈ plugins → meta_Name (metaOf plugin) ≠ name.
Proof.
  induction plugins as [|p plugins IH]; cbn [findPluginSpec].
  - split; [intros _ plugin Hin; inversion Hin | done].
  - case_decide as Hname.
    + split; [done |]. intros Hall. destruct (Hall p); [left | done].
    + rewrite IH. split.
      * intros Hall plugin Hin.
        apply elem_of_cons in Hin as [-> | Hin]; auto.
      * intros Hall plugin Hin. apply Hall. by right.
Qed.

Lemma findPluginSpec_NoDup (plugins : list PluginSpec) (plugin : PluginSpec) :
  NoDup ((λ p, meta_Name (metaOf p)) <$> plugins) →
  plugin ∈ plugins →
  findPluginSpec plugins (meta_Name (metaOf plugin)) = Some plugin.
Proof.
  induction plugins as [|p plugins IH]; intros Hnodup Hin;
    [inversion Hin |].
  rewrite fmap_cons in Hnodup. apply NoDup_cons in Hnodup as [Hfresh Hnodup].
  cbn [findPluginSpec].
  apply elem_of_cons in Hin as [-> | Hin]; [by rewrite decide_True |].
  rewrite decide_False; [by apply IH |].
  intros Heq. apply Hfresh. rewrite Heq.
  by apply (list_elem_of_fmap_2 (λ p, meta_Name (metaOf p))).
Qed.

(** One round of the loop over the plugins, read backwards. *)
Lemma validatePlugin_Ok (pluginBuffs : gmap string PluginSpec)
    (pluginRecords pluginRecords' : gmap string PluginRecord)
    (plugin : PluginSpec) :
  validatePlugin pluginBook pluginBuffs pluginRecords plugin
    = Ok pluginRecords' ↔
  pluginAccepted pluginBook pluginBuffs plugin ∧
  pluginRecords !! meta_Name (metaOf plugin) = None ∧
  ∃ pr, pluginBook !! meta_Kind (metaOf plugin) = Some pr ∧
        pluginRecords' = <[meta_Name (metaOf plugin) := pr]> pluginRecords.
Proof.
  unfold validatePlugin, validatePluginMeta, pluginAccepted.
  split.
  - intros Hone.
    destruct (decide (String.length (meta_Name (metaOf plugin)) = 0))
      as [| Hname]; [done |].
    destruct (decide (String.length (meta_Kind (metaOf plugin)) = 0))
      as [| Hkind]; [done |].
    destruct (decide (meta_Name (metaOf plugin) = LabelEND)); [done |].
    destruct (pluginRecords !! meta_Name (metaOf plugin)); [done |].
    destruct (pluginBook !! meta_Kind (metaOf plugin)) as [pr|]; [| done].
    destruct (pr_Validate pr plugin _) eqn:Hvalid; [| done].
    simplify_eq. rewrite length_zero_empty in Hname, Hkind.
    split_and!; try done; by exists pr.
  - intros ((Hname & Hkind & HEND & pr & Hpr & Hvalid) & Hfresh & pr' & Hpr' & ->).
    rewrite <- length_zero_empty in Hname, Hkind.
    rewrite !decide_False by done. rewrite Hfresh, Hpr.
    simplify_eq. by rewrite Hvalid.
Qed.

(** What the loop over the plugins has checked when it ends well, and
    where its records come from. *)
Lemma validatePlugins_Ok (pluginBuffs : gmap string PluginSpec)
    (plugins : list PluginSpec) :
  ∀ pluginRecords pluginRecords',
    validatePlugins pluginBook pluginBuffs pluginRecords plugins
      = Ok pluginRecords' →
    Forall (pluginAccepted pluginBook pluginBuffs) plugins ∧
    NoDup ((λ p, meta_Name (metaOf p)) <$> plugins) ∧
    (∀ plugin, plugin ∈ plugins →
       pluginRecords !! meta_Name (metaOf plugin) = None) ∧
    (∀ (name : string) pr, pluginRecords' !! name = Some pr →
       pluginRecords !! name = Some pr ∨
       ∃ plugin, plugin ∈ plugins ∧ meta_Name (metaOf plugin) = name ∧
                 pluginBook !! meta_Kind (metaOf plugin) = Some pr).
Proof.
  induction plugins as [|p plugins IH]; intros pluginRecords pluginRecords' Hall;
    cbn [validatePlugins] in Hall.
  { simplify_eq. split_and!; [constructor | constructor | | by left].
    intros plugin Hin. inversion Hin. }
  destruct (validatePlugin _ _ _ p) as [pluginRecords1|] eqn:Hone; [| done].
  apply validatePlugin_Ok in Hone as (Hp & Hfresh & pr & Hpr & ->).
  destruct (IH _ _ Hall) as (Hrest & Hnodup & Hfresh' & Hfrom).
  split_and!.
  - by constructor.
  - rewrite fmap_cons. apply NoDup_cons. split; [| done].
    intros Hin. apply list_elem_of_fmap in Hin as (q & Hname & Hq).
    specialize (Hfresh' q Hq). rewrite <- Hname in Hfresh'.
    by rewrite lookup_insert_eq in Hfresh'.
  - intros plugin Hin. apply elem_of_cons in Hin as [-> | Hin]; [done |].
    specialize (Hfresh' plugin Hin).
    apply lookup_insert_None in Hfresh'. by destruct Hfresh'.
  - intros name pr' Hlookup.
    destruct (Hfrom name pr' Hlookup) as [Hold | (q & Hq & Hname & Hkind)].
    + apply lookup_insert_Some in Hold as [[<- <-] | [_ Hold]]; [| by left].
      right. exists p. split_and!; [left | done | done].
    + right. exists q. split_and!; [by right | done | done].
Qed.

(** The loop over the plugins ends well on accepted plugins with
    distinct names that are not yet in the records. *)
Lemma validatePlugins_complete (pluginBuffs : gmap string PluginSpec)
    (plugins : list PluginSpec) :
  ∀ pluginRecords,
    Forall (pluginAccepted pluginBook pluginBuffs) plugins →
    NoDup ((λ p, meta_Name (metaOf p)) <$> plugins) →
    (∀ plugin, plugin ∈ plugins →
       pluginRecords !! meta_Name (metaOf plugin) = None) →
    ∃ pluginRecords',
      validatePlugins pluginBook pluginBuffs pluginRecords plugins
        = Ok pluginRecords'.
Proof.
  induction plugins as [|p plugins IH];
    intros pluginRecords Hall Hnodup Hfresh; cbn [validatePlugins];
    [by eexists |].
  apply Forall_cons in Hall as [Hp Hall].
  rewrite fmap_cons in Hnodup. apply NoDup_cons in Hnodup as [Hnew Hnodup].
  pose proof Hp as (_ & _ & _ & pr & Hpr & _).
  assert (validatePlugin pluginBook pluginBuffs pluginRecords p =
          Ok (<[meta_Name (metaOf p) := pr]> pluginRecords)) as ->.
  { apply validatePlugin_Ok. split_and!; [done | apply Hfresh; left |].
    by exists pr. }
  apply IH; [done | done |].
  intros plugin Hin. apply lookup_insert_None. split.
  - apply Hfresh. by right.
  - intros Heq. apply Hnew. rewrite Heq.
    by apply (list_elem_of_fmap_2 (λ p, meta_Name (metaOf p))).
Qed.

Lemma checkJumpIf_complete (f : Flow) (pr : PluginRecord)
    (labelsValid : gset string) (entries : list (string * string)) :
  (∀ result label, (result, label) ∈ entries →
     result ∈ pr_Results pr ∧ label ∈ labelsValid) →
  checkJumpIf f pr labelsValid entries = None.
Proof.
  induction entries as [|[r l] entries IH]; intros Hall; cbn [checkJumpIf];
    [done |].
  destruct (Hall r l) as [Hr Hl]; [left |].
  apply StrInSlice_elem_of in Hr. rewrite Hr. cbn [negb].
  rewrite decide_True by done.
  apply IH. intros result label Hin. apply Hall. by right.
Qed.

(** The backward scan ends well when every step it meets has a record
    and targets among the labels it holds by then. *)
Lemma scanFlow_complete (pluginRecords : gmap string PluginRecord)
    (backwards : list Flow) :
  ∀ labelsValid,
    (∀ later f earlier, backwards = later ++ f :: earlier →
       ∃ pr, pluginRecords !! flow_Plugin f = Some pr ∧
         ∀ result label, flow_JumpIf f !! result = Some label →
           result ∈ pr_Results pr ∧
           (label ∈ labelsValid ∨ ∃ f', f' ∈ later ∧ flow_Plugin f' = label)) →
    ∃ labels', scanFlow pluginRecords labelsValid backwards = Ok labels'.
Proof.
  induction backwards as [|g backwards IH]; intros labelsValid Hall;
    cbn [scanFlow]; [by eexists |].
  destruct (Hall [] g backwards eq_refl) as (pr & Hpr & Hg).
  rewrite Hpr. rewrite checkJumpIf_complete.
  - apply IH. intros later f earlier -> .
    destruct (Hall (g :: later) f earlier eq_refl) as (pr' & Hpr' & Hf).
    exists pr'. split; [done |].
    intros result label Hjump.
    destruct (Hf result label Hjump) as [Hr [Hl | (f' & Hf' & Hname)]].
    + split; [done |]. left. apply elem_of_union. by right.
    + split; [done |].
      apply elem_of_cons in Hf' as [-> | Hf'].
      * left. apply elem_of_union. left. by apply elem_of_singleton.
      * right. by exists f'.
  - intros result label Hin. apply elem_of_map_to_list in Hin.
    destruct (Hg result label Hin) as [Hr [Hl | (f' & Hf' & _)]];
      [done | inversion Hf'].
Qed.

(** An accepted spec has what [Validate] asks for. *)
Lemma Validate_Ok_accepted (s : Spec) (config : RawConfig) :
  Validate pluginBook s config = Ok () →
  ∃ pluginsData,
    extractPluginsData config = Some pluginsData ∧
    Forall (pluginAccepted pluginBook (convertToPluginBuffs pluginsData))
      (spec_Plugins s) ∧
    NoDup ((λ p, meta_Name (metaOf p)) <$> spec_Plugins s) ∧
    flowAccepted pluginBook (spec_Plugins s) (spec_Flow s).
Proof.
  intros Hvalid. pose proof Hvalid as Hforward.
  unfold Validate in Hvalid.
  destruct (extractPluginsData config) as [pluginsData|]; [| done].
  exists pluginsData. split; [done |].
  destruct (validatePlugins _ _ _ _) as [pluginRecords|] eqn:Hplugins;
    [| done].
  destruct (validatePlugins_Ok _ _ _ _ Hplugins)
    as (Hall & Hnodup & _ & Hfrom).
  split_and!; [done | done |].
  destruct (checkRepeated _ _); [done |].
  destruct (scanFlow _ _ _) as [labels|] eqn:Hscan; [| done].
  intros i f Hi.
  assert (f ∈ rev (spec_Flow s)) as Hrev.
  { apply list_elem_of_In, in_rev. rewrite rev_involutive.
    apply list_elem_of_In. by eapply list_elem_of_lookup_2. }
  apply list_elem_of_split in Hrev as (later & earlier & Hsplit).
  destruct (pluginRecords !! flow_Plugin f) as [pr|] eqn:Hpr.
  + destruct (Hfrom _ _ Hpr) as [Hempty | (plugin & Hin & Hname & Hkind)];
      [by rewrite lookup_empty in Hempty |].
    exists plugin, pr. split_and!; try done.
    intros result label Hjump. split.
    * destruct (scanFlow_Ok _ _ _ _ Hscan _ _ _ _ _ Hsplit Hjump)
        as [(pr' & Hpr' & Hresult) _].
      rewrite Hpr in Hpr'. by simplify_eq.
    * by eapply Validate_Ok_forward.
  + exfalso. clear - Hscan Hsplit Hpr.
    revert Hscan. generalize ({[LabelEND]} : gset string).
    rewrite Hsplit. clear Hsplit.
    induction later as [|g later IH]; intros labelsValid Hscan;
      cbn [app scanFlow] in Hscan.
    * by rewrite Hpr in Hscan.
    * destruct (pluginRecords !! flow_Plugin g); [| done].
      destruct (checkJumpIf _ _ _ _); [done |]. by eapply IH.
Qed.

(** A spec that has what [Validate] asks for is accepted. *)
Lemma Validate_accepted_Ok (s : Spec) (config : RawConfig)
    (pluginsData : list PluginSpec) :
  extractPluginsData config = Some pluginsData →
  Forall (pluginAccepted pluginBook (convertToPluginBuffs pluginsData))
    (spec_Plugins s) →
  NoDup ((λ p, meta_Name (metaOf p)) <$> spec_Plugins s) →
  flowAccepted pluginBook (spec_Plugins s) (spec_Flow s) →
  Validate pluginBook s config = Ok ().
Proof.
  intros Hdata Hall Hnodup Hflow.
  unfold Validate. rewrite Hdata.
  destruct (validatePlugins_complete _ _ ∅ Hall Hnodup)
    as [pluginRecords Hplugins]; [intros; apply lookup_empty |].
  rewrite Hplugins, checkRepeated_empty.
  destruct (scanFlow_complete pluginRecords (rev (spec_Flow s)) {[LabelEND]})
    as [labels ->]; [| done].
  intros later f earlier Hsplit.
  assert (spec_Flow s = rev earlier ++ f :: rev later) as Hflow_split.
  { rewrite <- (rev_involutive (spec_Flow s)), Hsplit, rev_app_distr.
    simpl. by rewrite <- app_assoc. }
  assert (spec_Flow s !! length (rev earlier) = Some f) as Hi.
  { rewrite Hflow_split. by apply list_lookup_middle. }
  destruct (Hflow _ _ Hi) as (plugin & pr & Hin & Hname & Hkind & Hjumps).
  exists pr. split.
  + destruct (validatePlugins_records _ _ _ _ _ _ _ Hplugins
                (findPluginSpec_NoDup _ _ Hnodup Hin)) as [_ Hrecord].
    by rewrite <- Hname, Hrecord.
  + intros result label Hjump.
    destruct (Hjumps result label Hjump)
      as [Hresult [-> | (j & f' & Hj & Hf' & Hlabel)]].
    * split; [done |]. left. by apply elem_of_singleton.
    * split; [done |]. right. exists f'. split; [| done].
      rewrite Hflow_split in Hf'.
      rewrite lookup_app_r in Hf' by lia.
      destruct (j - length (rev earlier)) as [|k] eqn:Hk; [lia |].
      simpl in Hf'. apply list_elem_of_lookup_2 in Hf'.
      by apply list_elem_of_In, in_rev, list_elem_of_In in Hf'.
Qed.

(** [Validate] accepts a spec exactly when the raw configuration has
    the key [plugins], every plugin of the spec has a name other than
    [END], a registered kind and a spec valid for it, the names of the
    plugins are distinct, and every step of the flow names a plugin of
    the spec, jumps only on results of the kind of that plugin, and
    only to [END] or to the plugin of a later step. *)
Theorem Validate_Ok_iff (s : Spec) (config : RawConfig) :
  Validate pluginBook s config = Ok () ↔
  ∃ pluginsData,
    extractPluginsData config = Some pluginsData ∧
    Forall (pluginAccepted pluginBook (convertToPluginBuffs pluginsData))
      (spec_Plugins s) ∧
    NoDup ((λ p, meta_Name (metaOf p)) <$> spec_Plugins s) ∧
    flowAccepted pluginBook (spec_Plugins s) (spec_Flow s).
Proof.
  split.
  - apply Validate_Ok_accepted.
  - intros (pluginsData & Hdata & Hall & Hnodup & Hflow).
    by eapply Validate_accepted_Ok.
Qed.

End ValidateCharacterised.

(** ** [New], [Close] and [Status] *)

Section ConstructionMore.

Context `{World}.
Context (pluginBook : gmap string PluginRecord).

Lemma resolveFlow_complete (plugins : list PluginSpec) (flow : list Flow) :
  (∀ f, f ∈ flow →
     ∃ plugin, plugin ∈ plugins ∧ meta_Name (metaOf plugin) = flow_Plugin f) →
  ∃ entries,
    resolveFlow plugins flow = Ok entries ∧
    Forall (λ entry, entry.1 ∈ plugins) entries.
Proof.
  induction flow as [|f flow IH]; intros Hall; cbn [resolveFlow].
  { eexists. split; [done | constructor]. }
  destruct (findPluginSpec plugins (flow_Plugin f)) as [pluginSpec|] eqn:Hfind.
  - destruct IH as (entries & -> & Hentries).
    { intros g Hg. apply Hall. by right. }
    eexists. split; [done |]. constructor; [| done].
    by apply findPluginSpec_Some in Hfind as [Hin _].
  - destruct (Hall f) as (plugin & Hin & Hname); [left |].
    rewrite findPluginSpec_None in Hfind. by destruct (Hfind plugin Hin).
Qed.

Lemma buildPlugins_complete (prev : option HTTPPipeline)
    (entries : list (PluginSpec * gmap string string)) :
  Forall (λ entry,
    ∃ pr, pluginBook !! meta_Kind (metaOf entry.1) = Some pr ∧
          callable pr (prevValueOf prev (meta_Name (metaOf entry.1))) = true)
    entries →
  ∃ built, buildPlugins pluginBook prev entries = Ok built.
Proof.
  induction entries as [|[spec jumpIf] entries IH]; intros Hall;
    cbn [buildPlugins]; cbv zeta; [by eexists |].
  apply Forall_cons in Hall as [(pr & Hpr & Hcall) Hall].
  cbn [fst] in Hpr, Hcall. rewrite Hpr, Hcall.
  destruct (IH Hall) as [[rps events] ->]. by eexists.
Qed.

(** A spec that [Validate] accepts can be built: [New] does not panic
    on it, provided that a plugin taken over from the previous
    pipeline has the type the constructor of the new kind takes, which
    is so in particular when there is no previous pipeline. *)
Theorem Validate_Ok_New_Ok (s : Spec) (config : RawConfig)
    (prev : option HTTPPipeline) (handlers : gmap string HTTPPipeline) :
  Validate pluginBook s config = Ok () →
  (∀ prevPipeline plugin rp pr,
     prev = Some prevPipeline →
     plugin ∈ spec_Plugins s →
     getRunningPlugin prevPipeline (meta_Name (metaOf plugin)) = Some rp →
     pluginBook !! meta_Kind (metaOf plugin) = Some pr →
     Plugin_Type (rp_plugin rp) = pr_PluginType pr) →
  ∃ r, New pluginBook s prev handlers = Ok r.
Proof.
  intros Hvalid Htypes.
  apply Validate_Ok_accepted in Hvalid as (pluginsData & _ & Hall & _ & Hflow).
  rewrite Forall_forall in Hall.
  assert (∃ entries,
            resolveRunningPlugins s = Ok entries ∧
            Forall (λ entry, entry.1 ∈ spec_Plugins s) entries)
    as (entries & Hresolve & Hentries).
  { unfold resolveRunningPlugins. case_decide as Hlen.
    - eexists. split; [done |]. apply Forall_fmap, Forall_forall. by intros.
    - apply resolveFlow_complete. intros f Hf.
      apply list_elem_of_lookup in Hf as [i Hi].
      destruct (Hflow i f Hi) as (plugin & _ & Hin & Hname & _).
      by exists plugin. }
  unfold New. rewrite Hresolve.
  destruct (buildPlugins_complete prev entries) as [[rps events] ->];
    [| by eexists].
  eapply Forall_impl; [exact Hentries |]. cbn beta.
  intros [plugin jumpIf] Hin. cbn [fst] in *.
  destruct (Hall plugin Hin) as (_ & _ & _ & pr & Hpr & _).
  exists pr. split; [done |].
  unfold callable, prevValueOf.
  destruct prev as [prevPipeline|]; [| done].
  destruct (getRunningPlugin prevPipeline _) as [rp|] eqn:Hget; [| done].
  apply bool_decide_eq_true. by eapply Htypes.
Qed.

Lemma New_flow_Forall2 (s : Spec) (prev : option HTTPPipeline)
    (handlers : gmap string HTTPPipeline) (r : NewResult) :
  spec_Flow s ≠ [] →
  New pluginBook s prev handlers = Ok r →
  Forall2 (λ f rp,
    rp_meta rp = metaOf (rp_spec rp) ∧
    rp_jumpIf rp = flow_JumpIf f ∧
    findPluginSpec (spec_Plugins s) (flow_Plugin f) = Some (rp_spec rp))
    (spec_Flow s) (hp_runningPlugins (new_hp r)).
Proof.
  intros Hflow HNew. unfold New, resolveRunningPlugins in HNew.
  rewrite decide_False in HNew
    by (intros Hlen; by apply length_zero_iff_nil in Hlen).
  destruct (resolveFlow _ _) as [entries|] eqn:Hresolve; [| done].
  destruct (buildPlugins _ _ _) as [[rps events]|] eqn:Hbuild; [| done].
  simplify_eq. cbn [new_hp hp_runningPlugins].
  destruct (buildPlugins_Ok _ _ _ _ _ Hbuild) as (Hentries & Hall & _).
  apply resolveFlow_Ok in Hresolve. rewrite <- Hentries in Hresolve.
  apply Forall2_fmap_r in Hresolve.
  rewrite Forall_forall in Hall.
  apply Forall2_same_length_lookup in Hresolve as [Hlen Hlookup].
  apply Forall2_same_length_lookup. split; [done |].
  intros i f rp Hf Hrp.
  destruct (Hlookup i f rp Hf Hrp) as [Hfind Hjump]. cbn [fst snd] in *.
  destruct (Hall rp) as (Hmeta & _); [by eapply list_elem_of_lookup_2 |].
  by split_and!.
Qed.

(** With a flow, the running plugins follow the flow step by step:
    the plugin of a step has the name the step gives, the jump table
    of the step, and the first spec of that name among the plugins. *)
Theorem New_follows_flow (s : Spec) (prev : option HTTPPipeline)
    (handlers : gmap string HTTPPipeline) (r : NewResult) :
  spec_Flow s ≠ [] →
  New pluginBook s prev handlers = Ok r →
  Forall2 (λ f rp,
    meta_Name (rp_meta rp) = flow_Plugin f ∧
    rp_jumpIf rp = flow_JumpIf f ∧
    findPluginSpec (spec_Plugins s) (flow_Plugin f) = Some (rp_spec rp))
    (spec_Flow s) (hp_runningPlugins (new_hp r)).
Proof.
  intros Hflow HNew.
  eapply Forall2_impl; [exact (New_flow_Forall2 s prev handlers r Hflow HNew) |].
  intros f rp (Hmeta & Hjump & Hfind). split_and!; [| done | done].
  rewrite Hmeta. by apply findPluginSpec_Some in Hfind as [_ Hname].
Qed.

(** Without a previous pipeline [New] closes nothing: it calls the
    constructor of every running plugin with the zero value, in order,
    and stores the pipeline. *)
Theorem New_without_prev (s : Spec) (handlers : gmap string HTTPPipeline)
    (r : NewResult) :
  New pluginBook s None handlers = Ok r →
  Forall (λ rp, rp_plugin rp = pr_NewFunc (rp_pr rp) (rp_spec rp) None)
    (hp_runningPlugins (new_hp r)) ∧
  new_events r =
    ((λ rp, EvNewFunc (meta_Kind (rp_meta rp)) (rp_spec rp) None)
       <$> hp_runningPlugins (new_hp r)) ++
    [EvStore (spec_Name s) (new_hp r)].
Proof.
  intros HNew. unfold New in HNew.
  destruct (resolveRunningPlugins s) as [entries|]; [| done].
  destruct (buildPlugins _ _ _) as [[rps events]|] eqn:Hbuild; [| done].
  simplify_eq. cbn [new_hp new_events hp_runningPlugins].
  destruct (buildPlugins_Ok _ _ _ _ _ Hbuild) as (_ & Hall & ->).
  split; [| done].
  eapply Forall_impl; [exact Hall |]. by intros rp (_ & _ & Hplugin).
Qed.

(** [New] panics on the first step of the flow whose plugin is not
    among the plugins of the spec, and says which. *)
Theorem New_flow_plugin_missing (s : Spec) (prev : option HTTPPipeline)
    (handlers : gmap string HTTPPipeline)
    (found : list Flow) (f : Flow) (rest : list Flow) :
  spec_Flow s = found ++ f :: rest →
  (∀ g, g ∈ found →
     ∃ plugin, plugin ∈ spec_Plugins s ∧
               meta_Name (metaOf plugin) = flow_Plugin g) →
  (∀ plugin, plugin ∈ spec_Plugins s →
     meta_Name (metaOf plugin) ≠ flow_Plugin f) →
  New pluginBook s prev handlers = Err (PanicFlowPluginNotFound (flow_Plugin f)).
Proof.
  intros Hflow Hfound Hmissing. unfold New, resolveRunningPlugins.
  rewrite Hflow. rewrite decide_False
    by (rewrite length_app; simpl; lia).
  assert (resolveFlow (spec_Plugins s) (found ++ f :: rest) =
          Err (PanicFlowPluginNotFound (flow_Plugin f))) as ->; [| done].
  clear Hflow. induction found as [|g found IH]; cbn [app resolveFlow].
  - apply findPluginSpec_None in Hmissing. by rewrite Hmissing.
  - destruct (Hfound g) as (plugin & Hin & Hname); [left |].
    destruct (findPluginSpec (spec_Plugins s) (flow_Plugin g)) eqn:Hfind.
    + rewrite IH; [done |]. intros g' Hg'. apply Hfound. by right.
    + rewrite findPluginSpec_None in Hfind. by destruct (Hfind plugin Hin).
Qed.

(** [Close] after [New] takes the pipeline out of the handler map
    again, together with whatever was there under its name before, and
    closes the plugins the constructors returned, one [Close] for each
    in the order they were built. *)
Theorem Close_after_New (s : Spec) (prev : option HTTPPipeline)
    (handlers : gmap string HTTPPipeline) (r : NewResult) :
  New pluginBook s prev handlers = Ok r →
  HTTPPipeline_Close (new_hp r) (new_handlers r) =
    (delete (spec_Name s) handlers,
     (λ rp, EvClose (pr_NewFunc (rp_pr rp) (rp_spec rp)
                       (prevValueOf prev (meta_Name (rp_meta rp)))))
       <$> hp_runningPlugins (new_hp r)).
Proof.
  intros HNew. unfold New in HNew.
  destruct (resolveRunningPlugins s) as [entries|]; [| done].
  destruct (buildPlugins _ _ _) as [[rps events]|] eqn:Hbuild; [| done].
  simplify_eq. unfold HTTPPipeline_Close.
  cbn [new_hp new_handlers hp_spec hp_runningPlugins].
  rewrite delete_insert_eq. f_equal.
  destruct (buildPlugins_Ok _ _ _ _ _ Hbuild) as (_ & Hall & _).
  rewrite Forall_forall in Hall.
  apply list_fmap_ext. intros i rp Hrp.
  destruct (Hall rp) as (_ & _ & ->); [by eapply list_elem_of_lookup_2 |].
  done.
Qed.

Context {PluginStatus : Type}.
Context (Plugin_Status : Plugin → PluginStatus).

Lemma Status_loop_lookup (rps : list runningPlugin) (name : string) :
  ∀ plugins : gmap string PluginStatus,
    Status_loop Plugin_Status rps plugins !! name =
      match last (filter (λ rp, meta_Name (rp_meta rp) = name) rps) with
      | Some rp => Some (Plugin_Status (rp_plugin rp))
      | None => plugins !! name
      end.
Proof.
  induction rps as [|rp rps IH]; intros plugins; cbn [Status_loop]; [done |].
  rewrite IH, filter_cons.
  destruct (decide (meta_Name (rp_meta rp) = name)) as [Hname | Hname].
  - rewrite last_cons. destruct (last (filter _ rps)); [done |].
    by rewrite Hname, lookup_insert_eq.
  - destruct (last (filter _ rps)); [done |]. by rewrite lookup_insert_ne.
Qed.

(** Under a name [Status] reports the last running plugin of that
    name, where [getRunningPlugin] finds the first; a name no running
    plugin has is not in the status. *)
Theorem Status_last_getRunningPlugin_first (hp : HTTPPipeline) (name : string) :
  status_Plugins (HTTPPipeline_Status Plugin_Status hp) !! name =
    (λ rp, Plugin_Status (rp_plugin rp)) <$>
      last (filter (λ rp, meta_Name (rp_meta rp) = name)
              (hp_runningPlugins hp)) ∧
  getRunningPlugin hp name =
    head (filter (λ rp, meta_Name (rp_meta rp) = name) (hp_runningPlugins hp)).
Proof.
  split.
  - unfold HTTPPipeline_Status. cbn [status_Plugins].
    rewrite Status_loop_lookup.
    destruct (last _); [done | apply lookup_empty].
  - unfold getRunningPlugin.
    induction (hp_runningPlugins hp) as [|rp rps IH];
      cbn [getRunningPlugin_loop]; [done |].
    rewrite filter_cons. by case_decide.
Qed.

End ConstructionMore.

(** ** More on [Handle] *)

Section HandlingMore.

Context `{World}.
Context (pluginBook : gmap string PluginRecord).

Lemma runPlugin_stat (rp : runningPlugin) (ctx : HTTPContext) :
  stat_Name (runPlugin rp ctx).1 = meta_Name (rp_meta rp) ∧
  stat_Kind (runPlugin rp ctx).1 = meta_Kind (rp_meta rp).
Proof. unfold runPlugin. by destruct (Plugin_Handle (rp_plugin rp) ctx). Qed.

(** The stat at a position of a replay is the stat of the plugin at
    the index of that position. *)
Lemma replay_lookup (rps : list runningPlugin) :
  ∀ (idxs : list nat) (stats : PipelineContext) (ctx ctx' : HTTPContext)
    (k i : nat) (stat : PluginStat),
    replay rps idxs ctx = (stats, ctx') →
    idxs !! k = Some i →
    stats !! k = Some stat →
    ∃ rp, rps !! i = Some rp ∧
          stat_Name stat = meta_Name (rp_meta rp) ∧
          stat_Kind stat = meta_Kind (rp_meta rp).
Proof.
  induction idxs as [|j idxs IH]; intros stats ctx ctx' k i stat Hreplay Hk Hstat;
    [done |].
  cbn [replay] in Hreplay.
  destruct (rps !! j) as [rp|] eqn:Hrp; [| by simplify_eq].
  pose proof (runPlugin_stat rp ctx) as [Hname Hkind].
  destruct (runPlugin rp ctx) as [stat0 ctx0].
  destruct (replay rps idxs ctx0) as [stats0 ctx1] eqn:Hrest.
  simplify_eq. destruct k as [|k]; simpl in Hk, Hstat; simplify_eq.
  - by exists rp.
  - by eapply IH.
Qed.

(** A forward walk, cut behind one of its plugins, is a forward walk
    towards the name the result label of that plugin gives. *)
Lemma forwardWalk_at (rps : list runningPlugin) :
  ∀ (idxs : list nat) (stats : PipelineContext) (from : nat)
    (next : option string) (k i : nat) (stat : PluginStat),
    forwardWalk rps from next idxs stats →
    idxs !! k = Some i →
    stats !! k = Some stat →
    forwardWalk rps (S i) (labelTarget rps i (stat_Result stat))
      (drop (S k) idxs) (drop (S k) stats).
Proof.
  induction idxs as [|j idxs IH];
    intros [|stat' stats] from next k i stat Hwalk Hk Hstat; try done.
  cbn [forwardWalk] in Hwalk. destruct Hwalk as [_ Hrest].
  destruct k as [|k]; simpl in Hk, Hstat; simplify_eq.
  - done.
  - change (forwardWalk rps (S i) (labelTarget rps i (stat_Result stat))
              (drop (S k) idxs) (drop (S k) stats)).
    by eapply IH.
Qed.

Lemma drop_head_lookup {A} (l : list A) (n : nat) (x : A) (rest : list A) :
  drop n l = x :: rest → l !! n = Some x.
Proof.
  intros Hdrop. apply (f_equal (λ l, l !! 0)) in Hdrop.
  rewrite lookup_drop in Hdrop. by rewrite Nat.add_0_r in Hdrop.
Qed.

(** What runs after a plugin, when the name awaited then belongs to a
    later running plugin: the first such plugin. *)
Lemma forwardWalk_next (rps : list runningPlugin) (idxs : list nat)
    (stats : PipelineContext) (from : nat) (next : option string)
    (k i j : nat) (stat : PluginStat) (target : string) (rp' : runningPlugin) :
  forwardWalk rps from next idxs stats →
  idxs !! k = Some i →
  stats !! k = Some stat →
  labelTarget rps i (stat_Result stat) = Some target →
  target ≠ LabelEND →
  i < j →
  rps !! j = Some rp' →
  meta_Name (rp_meta rp') = target →
  ∃ j' rp'' stat',
    idxs !! S k = Some j' ∧ stats !! S k = Some stat' ∧
    i < j' ≤ j ∧ rps !! j' = Some rp'' ∧ meta_Name (rp_meta rp'') = target.
Proof.
  intros Hwalk Hk Hstat Htarget HEND Hij Hrp' Hname.
  pose proof (forwardWalk_at _ _ _ _ _ _ _ _ Hwalk Hk Hstat) as Hrest.
  rewrite Htarget in Hrest.
  destruct (drop (S k) idxs) as [|j' idxs'] eqn:Hidxs,
           (drop (S k) stats) as [|stat' stats'] eqn:Hstats; try done.
  - cbn [forwardWalk walkEnds] in Hrest.
    destruct Hrest as [| Hnone]; [done |].
    by destruct (Hnone j rp' Hij Hrp').
  - cbn [forwardWalk] in Hrest.
    destruct Hrest as [(name & rp'' & ? & _ & Hle & Hrp'' & Hname'' & Hskip) _].
    simplify_eq. exists j', rp'', stat'.
    assert (j' ≤ j) as Hj'.
    { destruct (decide (j' ≤ j)) as [| Hgt]; [done |].
      destruct (Hskip j rp'); [lia | lia | done | done]. }
    split_and!.
    + by eapply drop_head_lookup.
    + by eapply drop_head_lookup.
    + lia.
    + done.
    + done.
    + done.
Qed.



Lemma sorted_within (idxs : list nat) :
  ∀ from n : nat,
    StronglySorted lt idxs →
    Forall (λ j, from ≤ j < n) idxs →
    from + length idxs ≤ n ∨ idxs = [].
Proof.
  induction idxs as [|i idxs IH]; intros from n Hsorted Hbounds; [by right |].
  left. apply StronglySorted_inv in Hsorted as [Hsorted Hlt].
  apply Forall_cons in Hbounds as [Hi Hbounds].
  destruct (IH (S i) n Hsorted) as [Hlen | ->]; [| simpl in *; lia | simpl; lia].
  rewrite Forall_forall in Hlt, Hbounds. apply Forall_forall. intros j Hj.
  specialize (Hlt j Hj). specialize (Hbounds j Hj). lia.
Qed.

(** [Handle] never records more stats than the pipeline has running
    plugins. *)
Theorem Handle_stats_bounded (hp : HTTPPipeline) (ctx : HTTPContext) :
  hp_runningPlugins hp ≠ [] →
  ∃ out,
    Handle hp ctx = Ok out ∧
    length (out_stats out) ≤ length (hp_runningPlugins hp).
Proof.
  intros Hne.
  destruct (Handle_Ok hp ctx Hne)
    as (out & idxs & ctx' & HHandle & _ & _ & _ & Hwalk).
  exists out. split; [done |].
  destruct (forwardWalk_sorted _ _ _ _ _ Hwalk) as (Hsorted & Hbounds & Hlen).
  rewrite <- Hlen.
  destruct (sorted_within idxs 0 _ Hsorted Hbounds) as [| ->];
    [lia | simpl; lia].
Qed.

(** A plugin whose jump table sends its result label to [END] is the
    last plugin [Handle] runs. *)
Theorem Handle_jump_to_END_stops (hp : HTTPPipeline) (ctx : HTTPContext) :
  hp_runningPlugins hp ≠ [] →
  ∃ out idxs ctx',
    Handle hp ctx = Ok out ∧
    replay (hp_runningPlugins hp) idxs ctx = (out_stats out, ctx') ∧
    out_ctx out = AddTag (pipelineTag (out_stats out)) ctx' ∧
    ∀ (k i : nat) rp stat,
      idxs !! k = Some i →
      out_stats out !! k = Some stat →
      hp_runningPlugins hp !! i = Some rp →
      stat_Result stat ≠ "" →
      rp_jumpIf rp !! stat_Result stat = Some LabelEND →
      S k = length (out_stats out).
Proof.
  intros Hne.
  destruct (Handle_Ok hp ctx Hne)
    as (out & idxs & ctx' & HHandle & Hreplay & Htag & _ & Hwalk).
  rewrite Cat_pipelineTag in Htag.
  exists out, idxs, ctx'. split_and!; try done.
  intros k i rp stat Hk Hstat Hrp Hres Hjump.
  pose proof (forwardWalk_at _ _ _ _ _ _ _ _ Hwalk Hk Hstat) as Hrest.
  assert (labelTarget (hp_runningPlugins hp) i (stat_Result stat) =
          Some LabelEND) as Htarget.
  { unfold labelTarget. rewrite decide_False by done. by rewrite Hrp. }
  rewrite Htarget in Hrest.
  apply lookup_lt_Some in Hstat.
  destruct (drop (S k) idxs) as [|j idxs'] eqn:Hidxs,
           (drop (S k) (out_stats out)) as [|stat' stats'] eqn:Hstats;
    try done.
  - apply (f_equal length) in Hstats. rewrite length_drop in Hstats.
    simpl in Hstats. lia.
  - cbn [forwardWalk] in Hrest.
    destruct Hrest as [(name & rp' & ? & HEND & _) _]. by simplify_eq.
Qed.

(** After a plugin that answers with the empty label, [Handle] runs
    the next running plugin, unless that one is called [END]. *)
Theorem Handle_empty_result_runs_next (hp : HTTPPipeline) (ctx : HTTPContext) :
  hp_runningPlugins hp ≠ [] →
  ∃ out idxs ctx',
    Handle hp ctx = Ok out ∧
    replay (hp_runningPlugins hp) idxs ctx = (out_stats out, ctx') ∧
    out_ctx out = AddTag (pipelineTag (out_stats out)) ctx' ∧
    ∀ (k i : nat) stat rp',
      idxs !! k = Some i →
      out_stats out !! k = Some stat →
      stat_Result stat = "" →
      hp_runningPlugins hp !! S i = Some rp' →
      meta_Name (rp_meta rp') ≠ LabelEND →
      idxs !! S k = Some (S i) ∧
      ∃ stat', out_stats out !! S k = Some stat' ∧
               stat_Name stat' = meta_Name (rp_meta rp') ∧
               stat_Kind stat' = meta_Kind (rp_meta rp').
Proof.
  intros Hne.
  destruct (Handle_Ok hp ctx Hne)
    as (out & idxs & ctx' & HHandle & Hreplay & Htag & _ & Hwalk).
  rewrite Cat_pipelineTag in Htag.
  exists out, idxs, ctx'. split_and!; try done.
  intros k i stat rp' Hk Hstat Hres Hrp' HEND.
  assert (labelTarget (hp_runningPlugins hp) i (stat_Result stat) =
          Some (meta_Name (rp_meta rp'))) as Htarget.
  { unfold labelTarget. rewrite decide_True by done. by rewrite Hrp'. }
  destruct (forwardWalk_next _ _ _ _ _ _ _ (S i) _ _ _ Hwalk Hk Hstat Htarget
              HEND (Nat.lt_succ_diag_r i) Hrp' eq_refl)
    as (j' & rp'' & stat' & Hk' & Hstat' & Hj' & Hrp'' & Hname).
  assert (j' = S i) as -> by lia.
  split; [done |]. exists stat'. split; [done |].
  destruct (replay_lookup _ _ _ _ _ _ _ _ Hreplay Hk' Hstat')
    as (rp0 & Hrp0 & Hname0 & Hkind0).
  by simplify_eq.
Qed.

(** In a pipeline built from a spec that [Validate] accepts, a jump
    that is taken lands: after a plugin whose result label has a
    target other than [END] in its jump table, [Handle] runs a later
    plugin called as the target, and records its stat next. *)
Theorem Handle_validated_jump_lands (s : Spec) (config : RawConfig)
    (prev : option HTTPPipeline) (handlers : gmap string HTTPPipeline)
    (r : NewResult) (ctx : HTTPContext) :
  Validate pluginBook s config = Ok () →
  New pluginBook s prev handlers = Ok r →
  hp_runningPlugins (new_hp r) ≠ [] →
  ∃ out idxs ctx',
    Handle (new_hp r) ctx = Ok out ∧
    replay (hp_runningPlugins (new_hp r)) idxs ctx = (out_stats out, ctx') ∧
    out_ctx out = AddTag (pipelineTag (out_stats out)) ctx' ∧
    ∀ (k i : nat) rp stat (target : string),
      idxs !! k = Some i →
      out_stats out !! k = Some stat →
      hp_runningPlugins (new_hp r) !! i = Some rp →
      stat_Result stat ≠ "" →
      rp_jumpIf rp !! stat_Result stat = Some target →
      target ≠ LabelEND →
      ∃ (j : nat) stat',
        idxs !! S k = Some j ∧ i < j ∧
        out_stats out !! S k = Some stat' ∧
        stat_Name stat' = target.
Proof.
  intros Hvalid HNew Hne.
  destruct (Handle_Ok (new_hp r) ctx Hne)
    as (out & idxs & ctx' & HHandle & Hreplay & Htag & _ & Hwalk).
  rewrite Cat_pipelineTag in Htag.
  exists out, idxs, ctx'. split_and!; try done.
  intros k i rp stat target Hk Hstat Hrp Hres Hjump HEND.
  destruct (decide (spec_Flow s = [])) as [Hflow | Hflow].
  { destruct (New_no_flow _ _ _ _ _ Hflow HNew) as [_ Hall].
    rewrite Forall_forall in Hall.
    destruct (Hall rp) as [Hempty _]; [by eapply list_elem_of_lookup_2 |].
    by rewrite Hempty, lookup_empty in Hjump. }
  pose proof (New_flow_Forall2 _ _ _ _ _ Hflow HNew) as Hfollows.
  destruct (Forall2_lookup_r _ _ _ _ _ Hfollows Hrp)
    as (f & Hf & _ & Htable & _).
  rewrite Htable in Hjump.
  destruct (Validate_Ok_forward _ _ _ Hvalid _ _ _ _ Hf Hjump)
    as [-> | (j & f' & Hij & Hf' & Hname)]; [done |].
  destruct (Forall2_lookup_l _ _ _ _ _ Hfollows Hf')
    as (rp' & Hrp' & Hmeta' & _ & Hfind').
  assert (meta_Name (rp_meta rp') = flow_Plugin f') as Hname'.
  { rewrite Hmeta'. by apply findPluginSpec_Some in Hfind' as [_ ?]. }
  assert (labelTarget (hp_runningPlugins (new_hp r)) i (stat_Result stat) =
          Some target) as Htarget.
  { unfold labelTarget. rewrite decide_False by done. rewrite Hrp.
    cbn [mbind option_bind]. by rewrite Htable. }
  destruct (forwardWalk_next _ _ _ _ _ _ _ j _ _ rp' Hwalk Hk Hstat Htarget
              HEND Hij Hrp') as (j' & rp'' & stat' & Hk' & Hstat' & Hj' & Hrp'' & Hname'');
    [by rewrite Hname' |].
  exists j', stat'. split_and!; [done | lia | done |].
  destruct (replay_lookup _ _ _ _ _ _ _ _ Hreplay Hk' Hstat')
    as (rp0 & Hrp0 & Hname0 & _).
  rewrite Hrp'' in Hrp0. injection Hrp0 as <-.
  by rewrite Hname0.
Qed.

End HandlingMore.

(** ** The path adaptor *)

Section PathAdaptorFacts.

Import HTTPAdaptor.

Context {Regexp : Type}.
Context (regexp_Compile : string → option Regexp).
Context (Regexp_ReplaceAllString : Regexp → string → string → string).

Lemma append_cons (c : Ascii.ascii) (s t : string) :
  String c s +:+ t = String c (s +:+ t).
Proof. done. Qed.

Lemma length_append (s t : string) :
  String.length (s +:+ t) = String.length s + String.length t.
Proof.
  induction s as [|c s IH]; [done |].
  rewrite append_cons. cbn [String.length]. by rewrite IH.
Qed.

Lemma strings_HasPrefix_append (prefix rest : string) :
  strings_HasPrefix (prefix +:+ rest) prefix = true.
Proof.
  induction prefix as [|c prefix IH]; [done |].
  rewrite append_cons. cbn [strings_HasPrefix]. by rewrite decide_True.
Qed.

Lemma sliceFrom_append (prefix rest : string) :
  sliceFrom (String.length prefix) (prefix +:+ rest) = rest.
Proof.
  induction prefix as [|c prefix IH]; [by destruct rest |].
  rewrite append_cons. by cbn [String.length sliceFrom].
Qed.

Lemma strings_HasPrefix_true (s prefix : string) :
  strings_HasPrefix s prefix = true →
  s = prefix +:+ sliceFrom (String.length prefix) s.
Proof.
  revert s. induction prefix as [|c prefix IH]; intros s Hhas.
  - by destruct s.
  - destruct s as [|d s]; [done |]. cbn [strings_HasPrefix] in Hhas.
    case_decide as Hc; [| done]. subst d.
    rewrite append_cons. cbn [String.length sliceFrom]. f_equal. by apply IH.
Qed.

Lemma sliceFrom_length (n : nat) (s : string) :
  String.length (sliceFrom n s) ≤ String.length s.
Proof.
  revert s. induction n as [|n IH]; intros [|c s]; cbn [sliceFrom String.length];
    try lia.
  specialize (IH s). lia.
Qed.

(** [strings.TrimPrefix] takes the prefix off a string that starts
    with it and leaves every other string alone. *)
Lemma strings_TrimPrefix_spec (s prefix : string) :
  (∀ rest, s = prefix +:+ rest → strings_TrimPrefix s prefix = rest) ∧
  ((∀ rest, s ≠ prefix +:+ rest) → strings_TrimPrefix s prefix = s).
Proof.
  unfold strings_TrimPrefix. split.
  - intros rest ->. by rewrite strings_HasPrefix_append, sliceFrom_append.
  - intros Hnot. destruct (strings_HasPrefix s prefix) eqn:Hhas; [| done].
    apply strings_HasPrefix_true in Hhas. by destruct (Hnot _ Hhas).
Qed.

(** Trimming a prefix undoes adding it: an adaptor that only trims
    [prefix], run on what an adaptor that only adds [prefix] made of a
    path, gives the path back. *)
Theorem Adapt_add_then_trim (prefix path : string) :
  prefix ≠ "" →
  Adapt Regexp_ReplaceAllString
    (newPathAdaptor regexp_Compile (trimmingPrefix prefix)).1
    (Adapt Regexp_ReplaceAllString
       (newPathAdaptor regexp_Compile (addingPrefix prefix)).1 path) = path.
Proof.
  intros Hprefix.
  assert (String.length prefix ≠ 0) as Hlen by (by destruct prefix).
  unfold Adapt, newPathAdaptor, trimmingPrefix, addingPrefix.
  cbn [pas_RegexpReplace fst pa_spec pas_Replace pas_AddPrefix pas_TrimPrefix
       String.length].
  rewrite !(decide_False (P := 0 ≠ 0)) by lia.
  rewrite !decide_True by done.
  by apply strings_TrimPrefix_spec.
Qed.

(** An adaptor with no replacement and no prefix to add, and with a
    prefix to trim: a path that starts with the prefix loses it, any
    other path is left as it is, and no path gets longer. *)
Theorem Adapt_trims_prefix (a : pathAdaptor) (path : string) :
  pas_Replace (pa_spec a) = "" →
  pas_AddPrefix (pa_spec a) = "" →
  pas_TrimPrefix (pa_spec a) ≠ "" →
  (∀ rest, path = pas_TrimPrefix (pa_spec a) +:+ rest →
     Adapt Regexp_ReplaceAllString a path = rest) ∧
  ((∀ rest, path ≠ pas_TrimPrefix (pa_spec a) +:+ rest) →
     Adapt Regexp_ReplaceAllString a path = path) ∧
  String.length (Adapt Regexp_ReplaceAllString a path) ≤ String.length path.
Proof.
  intros Hreplace Hadd Htrim.
  assert (String.length (pas_TrimPrefix (pa_spec a)) ≠ 0) as Hlen
    by (by destruct (pas_TrimPrefix (pa_spec a))).
  unfold Adapt. rewrite Hreplace, Hadd. cbn [String.length].
  rewrite !(decide_False (P := 0 ≠ 0)) by lia.
  rewrite decide_True by done.
  split_and!; [apply strings_TrimPrefix_spec.. |].
  unfold strings_TrimPrefix. destruct (strings_HasPrefix _ _); [| done].
  apply sliceFrom_length.
Qed.

(** An adaptor that only rewrites by a regexp: [newPathAdaptor]
    compiles the regexp anew, whatever the spec held as compiled; when
    it compiles, [Adapt] replaces all matches in the path, and when it
    does not, the bug is logged and [Adapt] leaves every path as it
    is. *)
Theorem Adapt_regexp_compiled_or_not (spec : pathAdaptorSpec)
    (regexpReplace : RegexpReplace) :
  pas_Replace spec = "" →
  pas_AddPrefix spec = "" →
  pas_TrimPrefix spec = "" →
  pas_RegexpReplace spec = Some regexpReplace →
  match regexp_Compile (rr_Regexp regexpReplace) with
  | Some re =>
    (newPathAdaptor regexp_Compile spec).2 = [] ∧
    ∀ path,
      Adapt Regexp_ReplaceAllString (newPathAdaptor regexp_Compile spec).1 path
        = Regexp_ReplaceAllString re path (rr_Replace regexpReplace)
  | None =>
    (newPathAdaptor regexp_Compile spec).2 =
      [BugCompileRegexp (rr_Regexp regexpReplace)] ∧
    ∀ path,
      Adapt Regexp_ReplaceAllString (newPathAdaptor regexp_Compile spec).1 path
        = path
  end.
Proof.
  intros Hreplace Hadd Htrim Hregexp.
  unfold newPathAdaptor, Adapt. rewrite Hregexp. cbv zeta.
  cbn [fst snd pa_spec pas_Replace pas_AddPrefix pas_TrimPrefix
       pas_RegexpReplace rr_re rr_Replace].
  rewrite Hreplace, Hadd, Htrim. cbn [String.length].
  destruct (regexp_Compile (rr_Regexp regexpReplace));
    (split; [done |]; intros path;
     by rewrite !(decide_False (P := 0 ≠ 0)) by lia).
Qed.

(** The fields of the spec are tried in a fixed order, and the first
    that is set decides alone: a replacement makes [Adapt] constant,
    and a prefix to add is added whatever else is set after it. *)
Lemma Adapt_first_set_field_decides (a : pathAdaptor) (path : string) :
  (pas_Replace (pa_spec a) ≠ "" →
     Adapt Regexp_ReplaceAllString a path = pas_Replace (pa_spec a)) ∧
  (pas_Replace (pa_spec a) = "" → pas_AddPrefix (pa_spec a) ≠ "" →
     Adapt Regexp_ReplaceAllString a path = pas_AddPrefix (pa_spec a) +:+ path ∧
     String.length (Adapt Regexp_ReplaceAllString a path) =
       String.length (pas_AddPrefix (pa_spec a)) + String.length path).
Proof.
  unfold Adapt. split.
  - intros Hreplace. rewrite decide_True; [done |].
    by destruct (pas_Replace (pa_spec a)).
  - intros Hreplace Hadd. rewrite Hreplace. cbn [String.length].
    rewrite (decide_False (P := 0 ≠ 0)) by lia.
    rewrite decide_True by (by destruct (pas_AddPrefix (pa_spec a))).
    split; [done | apply length_append].
Qed.

End PathAdaptorFacts.

(** ** The further properties in the small world *)

(** A jump to [END]: [a] rejects, and [b] is not run. *)
Example served_ending :
  Demo.served Demo.ending =
    Some (["a"], ["pipeline: a(invalid,5ns)"],
          [{| stat_Name := "a"; stat_Kind := "Validator";
              stat_Result := "invalid"; stat_Duration := 5 |}],
          []).
Proof. vm_compute. reflexivity. Qed.

Lemma Validate_Ok_New_Ok_witness :
  ∃ r, New Demo.book Demo.jumping None ∅ = Ok r.
Proof.
  apply (Validate_Ok_New_Ok Demo.book Demo.jumping
           (Demo.config Demo.jumping) None ∅).
  - vm_compute. reflexivity.
  - intros prevPipeline plugin rp pr Hprev. discriminate Hprev.
Defined.

Lemma New_follows_flow_witness :
  Forall2 (λ f rp,
    meta_Name (rp_meta rp) = flow_Plugin f ∧
    rp_jumpIf rp = flow_JumpIf f ∧
    findPluginSpec (spec_Plugins Demo.jumping) (flow_Plugin f)
      = Some (rp_spec rp))
    (spec_Flow Demo.jumping) (hp_runningPlugins (Demo.pipeline Demo.jumping)).
Proof.
  apply (New_follows_flow Demo.book Demo.jumping None ∅
           (Demo.created Demo.jumping None)).
  - discriminate.
  - apply Demo_created_Ok. vm_compute. reflexivity.
Defined.

Lemma New_without_prev_witness :
  Forall (λ rp, rp_plugin rp = pr_NewFunc (rp_pr rp) (rp_spec rp) None)
    (hp_runningPlugins (Demo.pipeline Demo.passing)) ∧
  new_events (Demo.created Demo.passing None) =
    ((λ rp, EvNewFunc (meta_Kind (rp_meta rp)) (rp_spec rp) None)
       <$> hp_runningPlugins (Demo.pipeline Demo.passing)) ++
    [EvStore (spec_Name Demo.passing) (Demo.pipeline Demo.passing)].
Proof.
  apply (New_without_prev Demo.book Demo.passing ∅
           (Demo.created Demo.passing None)).
  apply Demo_created_Ok. vm_compute. reflexivity.
Defined.

Lemma New_flow_plugin_missing_witness :
  New Demo.book Demo.dangling None ∅ = Err (PanicFlowPluginNotFound "zz").
Proof.
  apply (New_flow_plugin_missing Demo.book Demo.dangling None ∅
           [Demo.step "a" []] (Demo.step "zz" []) [Demo.step "b" []]).
  - reflexivity.
  - intros g Hg. apply list_elem_of_singleton in Hg as ->.
    exists (Demo.plug "a" "Validator" ""). split; [left |].
    vm_compute. reflexivity.
  - intros plugin Hin.
    repeat (apply elem_of_cons in Hin as [-> | Hin];
            [vm_compute; discriminate |]).
    inversion Hin.
Defined.

Lemma Close_after_New_witness :
  HTTPPipeline_Close (Demo.pipeline Demo.passing)
    (new_handlers (Demo.created Demo.passing None)) =
    (delete (spec_Name Demo.passing) ∅,
     (λ rp, EvClose (pr_NewFunc (rp_pr rp) (rp_spec rp)
                       (prevValueOf None (meta_Name (rp_meta rp)))))
       <$> hp_runningPlugins (Demo.pipeline Demo.passing)).
Proof.
  apply (Close_after_New Demo.book Demo.passing None ∅
           (Demo.created Demo.passing None)).
  apply Demo_created_Ok. vm_compute. reflexivity.
Defined.


Lemma Handle_stats_bounded_witness :
  ∃ out,
    Handle (Demo.pipeline Demo.jumping) Demo.ctx0 = Ok out ∧
    length (out_stats out) ≤
      length (hp_runningPlugins (Demo.pipeline Demo.jumping)).
Proof.
  apply (Handle_stats_bounded (Demo.pipeline Demo.jumping) Demo.ctx0).
  apply Demo_pipeline_running. vm_compute. reflexivity.
Defined.

Lemma Handle_jump_to_END_stops_witness :
  ∃ out idxs ctx',
    Handle (Demo.pipeline Demo.ending) Demo.ctx0 = Ok out ∧
    replay (hp_runningPlugins (Demo.pipeline Demo.ending)) idxs Demo.ctx0 =
      (out_stats out, ctx') ∧
    out_ctx out =
      @AddTag Demo.world (pipelineTag (H := Demo.world) (out_stats out)) ctx' ∧
    ∀ (k i : nat) rp stat,
      idxs !! k = Some i →
      out_stats out !! k = Some stat →
      hp_runningPlugins (Demo.pipeline Demo.ending) !! i = Some rp →
      stat_Result stat ≠ "" →
      rp_jumpIf rp !! stat_Result stat = Some LabelEND →
      S k = length (out_stats out).
Proof.
  apply (Handle_jump_to_END_stops (Demo.pipeline Demo.ending) Demo.ctx0).
  apply Demo_pipeline_running. vm_compute. reflexivity.
Defined.

Lemma Handle_empty_result_runs_next_witness :
  ∃ out idxs ctx',
    Handle (Demo.pipeline Demo.passing) Demo.ctx0 = Ok out ∧
    replay (hp_runningPlugins (Demo.pipeline Demo.passing)) idxs Demo.ctx0 =
      (out_stats out, ctx') ∧
    out_ctx out =
      @AddTag Demo.world (pipelineTag (H := Demo.world) (out_stats out)) ctx' ∧
    ∀ (k i : nat) stat rp',
      idxs !! k = Some i →
      out_stats out !! k = Some stat →
      stat_Result stat = "" →
      hp_runningPlugins (Demo.pipeline Demo.passing) !! S i = Some rp' →
      meta_Name (rp_meta rp') ≠ LabelEND →
      idxs !! S k = Some (S i) ∧
      ∃ stat', out_stats out !! S k = Some stat' ∧
               stat_Name stat' = meta_Name (rp_meta rp') ∧
               stat_Kind stat' = meta_Kind (rp_meta rp').
Proof.
  apply (Handle_empty_result_runs_next (Demo.pipeline Demo.passing) Demo.ctx0).
  apply Demo_pipeline_running. vm_compute. reflexivity.
Defined.

Lemma Handle_validated_jump_lands_witness :
  ∃ out idxs ctx',
    Handle (Demo.pipeline Demo.jumping) Demo.ctx0 = Ok out ∧
    replay (hp_runningPlugins (Demo.pipeline Demo.jumping)) idxs Demo.ctx0 =
      (out_stats out, ctx') ∧
    out_ctx out =
      @AddTag Demo.world (pipelineTag (H := Demo.world) (out_stats out)) ctx' ∧
    ∀ (k i : nat) rp stat (target : string),
      idxs !! k = Some i →
      out_stats out !! k = Some stat →
      hp_runningPlugins (Demo.pipeline Demo.jumping) !! i = Some rp →
      stat_Result stat ≠ "" →
      rp_jumpIf rp !! stat_Result stat = Some target →
      target ≠ LabelEND →
      ∃ (j : nat) stat',
        idxs !! S k = Some j ∧ i < j ∧
        out_stats out !! S k = Some stat' ∧
        stat_Name stat' = target.
Proof.
  apply (Handle_validated_jump_lands Demo.book Demo.jumping
           (Demo.config Demo.jumping) None ∅
           (Demo.created Demo.jumping None) Demo.ctx0).
  - vm_compute. reflexivity.
  - apply Demo_created_Ok. vm_compute. reflexivity.
  - apply Demo_pipeline_running. vm_compute. reflexivity.
Defined.

Lemma Adapt_add_then_trim_witness :
  HTTPAdaptor.Adapt (λ (_ : unit) path _, path)
    (HTTPAdaptor.newPathAdaptor (λ _, None)
       (HTTPAdaptor.trimmingPrefix "/api")).1
    (HTTPAdaptor.Adapt (λ (_ : unit) path _, path)
       (HTTPAdaptor.newPathAdaptor (λ _, None)
          (HTTPAdaptor.addingPrefix "/api")).1 "/users") = "/users".
Proof.
  apply (Adapt_add_then_trim (λ _, None) (λ (_ : unit) path _, path)
           "/api" "/users").
  discriminate.
Defined.

Lemma Adapt_trims_prefix_witness :
  let a := {| HTTPAdaptor.pa_spec :=
                HTTPAdaptor.trimmingPrefix (Regexp := unit) "/api" |} in
  (∀ rest, "/api/users" = "/api" +:+ rest →
     HTTPAdaptor.Adapt (λ _ path _, path) a "/api/users" = rest) ∧
  ((∀ rest, "/api/users" ≠ "/api" +:+ rest) →
     HTTPAdaptor.Adapt (λ _ path _, path) a "/api/users" = "/api/users") ∧
  String.length (HTTPAdaptor.Adapt (λ _ path _, path) a "/api/users")
    ≤ String.length "/api/users".
Proof.
  apply (Adapt_trims_prefix (λ (_ : unit) path _, path)
           {| HTTPAdaptor.pa_spec := HTTPAdaptor.trimmingPrefix "/api" |}
           "/api/users").
  - reflexivity.
  - reflexivity.
  - discriminate.
Defined.

Example Adapt_trims_api :
  HTTPAdaptor.Adapt (λ (_ : unit) path _, path)
    {| HTTPAdaptor.pa_spec := HTTPAdaptor.trimmingPrefix "/api" |}
    <$> ["/api/users"; "/apiary"; "/v1/api"; "/ap"] =
  ["/users"; "ary"; "/v1/api"; "/ap"].
Proof. vm_compute. reflexivity. Qed.

Lemma Adapt_regexp_compiled_or_not_witness :
  let regexpReplace :=
    {| HTTPAdaptor.rr_Regexp := "("; HTTPAdaptor.rr_Replace := "x";
       HTTPAdaptor.rr_re := Some () |} in
  let spec :=
    {| HTTPAdaptor.pas_Replace := ""; HTTPAdaptor.pas_AddPrefix := "";
       HTTPAdaptor.pas_TrimPrefix := "";
       HTTPAdaptor.pas_RegexpReplace := Some regexpReplace |} in
  (HTTPAdaptor.newPathAdaptor (λ _, None) spec).2 =
    [HTTPAdaptor.BugCompileRegexp "("] ∧
  ∀ path,
    HTTPAdaptor.Adapt (λ (_ : unit) _ replace, replace)
      (HTTPAdaptor.newPathAdaptor (λ _, None) spec).1 path = path.
Proof.
  intros regexpReplace spec.
  apply (Adapt_regexp_compiled_or_not (λ _, None)
           (λ (_ : unit) _ replace, replace) spec regexpReplace);
    reflexivity.
Defined.

(** ** From an accepted spec to a served request *)

Section Served.

Context `{World}.
Context (pluginBook : gmap string PluginRecord).


Lemma convertToPluginBuffs_loop_lookup (obj : list PluginSpec) (name : string) :
  ∀ rst : gmap string PluginSpec,
    convertToPluginBuffs_loop obj rst !! name =
      match last (filter (λ p, meta_Name (metaOf p) = name) obj) with
      | Some p => Some p
      | None => rst !! name
      end.
Proof.
  induction obj as [|p obj IH]; intros rst; cbn [convertToPluginBuffs_loop];
    [done |].
  rewrite IH, filter_cons.
  destruct (decide (meta_Name (metaOf p) = name)) as [Hname | Hname].
  - rewrite last_cons. destruct (last (filter _ obj)); [done |].
    by rewrite Hname, lookup_insert_eq.
  - destruct (last (filter _ obj)); [done |]. by rewrite lookup_insert_ne.
Qed.

(** [convertToPluginBuffs] keeps, under a name, the last plugin of the
    raw configuration that has it, and nothing under a name no plugin
    has. *)
Theorem convertToPluginBuffs_lookup (obj : list PluginSpec) (name : string) :
  convertToPluginBuffs obj !! name =
    last (filter (λ p, meta_Name (metaOf p) = name) obj).
Proof.
  unfold convertToPluginBuffs. rewrite convertToPluginBuffs_loop_lookup.
  destruct (last _); [done | apply lookup_empty].
Qed.

End Served.


(** ** An undeclared result label ends the walk *)

Section Undeclared.

Context `{World}.
Context (pluginBook : gmap string PluginRecord).

Local Open Scope nat_scope.

(** [New] gives a pipeline of a spec that has a plugin a running
    plugin. *)
Lemma New_running_nonempty (s : Spec) (prev : option HTTPPipeline)
    (handlers : gmap string HTTPPipeline) (r : NewResult) :
  spec_Plugins s ≠ [] →
  New pluginBook s prev handlers = Ok r →
  hp_runningPlugins (new_hp r) ≠ [].
Proof.
  intros Hplugins HNew Hnil.
  destruct (decide (spec_Flow s = [])) as [Hnoflow | Hwithflow].
  - destruct (New_no_flow _ _ _ _ _ Hnoflow HNew) as [Hspecs _].
    by rewrite Hnil in Hspecs.
  - pose proof (New_flow_Forall2 _ _ _ _ _ Hwithflow HNew) as Hfollows.
    rewrite Hnil in Hfollows. by apply Forall2_nil_inv_r in Hfollows.
Qed.

(** C5. In a pipeline that [New] built from a spec [Validate] accepts,
    for every request: when the [Handle] of an executed plugin returns
    a result label that is not empty and is not among the results the
    kind of the plugin declares, [Handle] logs the bug, and the stat of
    that call is the last one: the [Handle] of no further plugin is
    called for the request. *)
Theorem Handle_undeclared_result_terminates (s : Spec) (config : RawConfig)
    (prev : option HTTPPipeline) (handlers : gmap string HTTPPipeline)
    (r : NewResult) (ctx : HTTPContext) :
  Validate pluginBook s config = Ok () →
  spec_Plugins s ≠ [] →
  New pluginBook s prev handlers = Ok r →
  ∃ out idxs ctx',
    Handle (new_hp r) ctx = Ok out ∧
    handled (hp_runningPlugins (new_hp r)) idxs ctx = (out_stats out, ctx') ∧
    out_ctx out = AddTag (pipelineTag (out_stats out)) ctx' ∧
    length idxs = length (out_stats out) ∧
    ∀ (k i : nat) rp stat,
      idxs !! k = Some i →
      out_stats out !! k = Some stat →
      hp_runningPlugins (new_hp r) !! i = Some rp →
      stat_Result stat ≠ "" →
      stat_Result stat ∉ pr_Results (rp_pr rp) →
      BugInvalidResult (stat_Result stat) (pr_Results (rp_pr rp))
        ∈ out_logs out ∧
      S k = length (out_stats out).
Proof.
  intros Hvalid Hplugins HNew.
  pose proof (New_running_nonempty _ _ _ _ Hplugins HNew) as Hne.
  destruct (Handle_Ok (new_hp r) ctx Hne)
    as (out & idxs & ctx' & HHandle & Hreplay & Htag & Hlogs & Hwalk).
  destruct (forwardWalk_sorted _ _ _ _ _ Hwalk) as (_ & _ & Hlen).
  rewrite Cat_pipelineTag in Htag. rewrite replay_handled in Hreplay.
  exists out, idxs, ctx'. split_and!; try done.
  intros k i rp stat Hk Hstat Hrp Hres Hundeclared.
  assert (rp_jumpIf rp !! stat_Result stat = None) as Hjump.
  { destruct (rp_jumpIf rp !! stat_Result stat) as [target|] eqn:Htarget;
      [| done].
    destruct Hundeclared.
    eapply (validated_jumpIf_declared pluginBook); [done | done | | done].
    by eapply list_elem_of_lookup_2. }
  split.
  - rewrite Hlogs. by eapply bugLogs_elem_of.
  - rewrite <- Hlen. by eapply forwardWalk_stops.
Qed.

End Undeclared.

(** [Demo.undeclaredStop] passes [Validate]; its plugin [a] declares
    [invalid] and answers [oops]: the bug is logged and [b] is not
    run. *)
Example served_undeclaredStop :
  Validate Demo.book Demo.undeclaredStop (Demo.config Demo.undeclaredStop)
    = Ok () ∧
  ∃ out,
    Handle (Demo.pipeline Demo.undeclaredStop) Demo.ctx0 = Ok out ∧
    (λ rp, (meta_Name (rp_meta rp), pr_Results (rp_pr rp))) <$>
      hp_runningPlugins (Demo.pipeline Demo.undeclaredStop) =
      [("a", ["invalid"]); ("b", ["fallback"])] ∧
    (λ stat, (stat_Name stat, stat_Result stat)) <$> out_stats out =
      [("a", "oops")] ∧
    out_logs out = [BugInvalidResult "oops" ["invalid"]] ∧
    Demo.calls (out_ctx out) = ["a"].
Proof. split; [by vm_compute |]. eexists. split_and!; vm_compute; reflexivity. Qed.

Lemma Handle_undeclared_result_terminates_witness :
  ∃ out idxs ctx',
    Handle (new_hp (Demo.created Demo.undeclaredStop None)) Demo.ctx0
      = Ok out ∧
    handled (hp_runningPlugins (new_hp (Demo.created Demo.undeclaredStop None)))
      idxs Demo.ctx0 = (out_stats out, ctx') ∧
    out_ctx out =
      @AddTag Demo.world (pipelineTag (H := Demo.world) (out_stats out)) ctx' ∧
    length idxs = length (out_stats out) ∧
    ∀ (k i : nat) rp stat,
      idxs !! k = Some i →
      out_stats out !! k = Some stat →
      hp_runningPlugins (new_hp (Demo.created Demo.undeclaredStop None)) !! i
        = Some rp →
      stat_Result stat ≠ "" →
      stat_Result stat ∉ pr_Results (rp_pr rp) →
      BugInvalidResult (stat_Result stat) (pr_Results (rp_pr rp))
        ∈ out_logs out ∧
      S k = length (out_stats out).
Proof.
  apply (Handle_undeclared_result_terminates Demo.book Demo.undeclaredStop
           (Demo.config Demo.undeclaredStop) None ∅
           (Demo.created Demo.undeclaredStop None) Demo.ctx0).
  - vm_compute. reflexivity.
  - discriminate.
  - apply Demo_created_Ok. vm_compute. reflexivity.
Defined.
